(** * node-ogg: the Ogg encoder / decoder wrappers, embedded in Rocq

    The TypeScript classes [Decoder], [DecoderStream], [Encoder] and
    [EncoderStream] are thin drivers around the native libogg addon
    ([./binding]).  The embedding keeps the drivers as they are written
    (tables indexed by serial number, event emission, callback chains) and
    represents every answer of the native addon by the next entry of a
    script. *)

From Stdlib Require Import ZArith List Lia Bool.
From Stdlib Require Import Strings.Byte.
From stdpp Require Import gmap list.
Import ListNotations.

Local Open Scope Z_scope.

(** JavaScript truthiness of a number handed over by the addon. *)
Definition truthy (z : Z) : bool := negb (z =? 0).

(** ** The native addon *)
Module Binding.

(** The two buffers of an [ogg_page]. *)
Record ogg_page := { header : list byte; body : list byte }.

(** One answer of the addon.  The arguments are the ones the addon passes
    to the JavaScript callback (or returns, for the [_init] functions). *)
Inductive response :=
| ogg_stream_init (r : Z)
| ogg_sync_write (rtn : Z)
| ogg_sync_pageout (rtn serialno packets : Z)
| ogg_stream_pagein (r : Z)
| ogg_stream_packetout (rtn bytes b_o_s e_o_s granulepos packetno : Z)
| ogg_stream_packetin (rtn : Z)
| ogg_stream_pageout (rtn : Z) (og : ogg_page) (hlen blen e_o_s : Z)
| ogg_stream_flush (rtn : Z) (og : ogg_page) (hlen blen e_o_s : Z).

(** [ogg_page_to_buffer(page, data)]: the header, then the body, are
    copied over the beginning of [data]. *)
Definition ogg_page_to_buffer (og : ogg_page) (data : list byte) : list byte :=
  take (length data) (header og ++ body og)
  ++ drop (length (header og ++ body og)) data.

End Binding.

(** Errors built by the wrappers ([new Error('...' + code)]), and the
    [TypeError] of a call to a method that the object does not have. *)
Inductive error :=
| ogg_stream_init_failed (r : Z)
| ogg_sync_write_error (rtn : Z)
| ogg_sync_pageout_error (rtn : Z)
| ogg_stream_pagein_error (r : Z)
| ogg_stream_packetout_error (rtn : Z)
| ogg_stream_packetin_error (rtn : Z)
| packet_replace_is_not_a_function.

(** ** OggPacket.ts *)

(** The prototype of an object: the methods and getters it answers to. *)
Inductive prototype := Buffer_prototype | OggPacket_prototype.

(** An object that stands for an [ogg_packet] struct: its prototype, the
    fields of the struct, and the property [_callback]. *)
Record OggPacket := {
  proto : prototype;
  bytes : Z;
  b_o_s : Z;
  e_o_s : Z;
  granulepos : Z;
  packetno : Z;
  (* [_callback]: [true] while [afterPacketRead] of the running [pagein] is
     stored in the packet, [false] for [null] or [undefined] *)
  _callback : bool
}.

(** [new OggPacket()].  The class extends [Buffer], and its constructor
    begins with [super(binding.sizeof_ogg_packet)].  [Buffer(size)] returns
    a buffer of its own making, and an object returned by the parent
    constructor takes the place of [this]: the length check that follows
    passes, and the result is a plain [Buffer], without the methods and
    getters of [OggPacket.prototype]. *)
Definition new_OggPacket : OggPacket :=
  {| proto := Buffer_prototype; bytes := 0; b_o_s := 0; e_o_s := 0;
     granulepos := 0; packetno := 0; _callback := false |}.

(** [binding.ogg_stream_packetout(os, packet, ...)] fills the struct behind
    [packet]. *)
Definition ogg_stream_packetout_fills (packet : OggPacket)
    (bytes b_o_s e_o_s granulepos packetno : Z) : OggPacket :=
  {| proto := proto packet; bytes := bytes; b_o_s := b_o_s; e_o_s := e_o_s;
     granulepos := granulepos; packetno := packetno;
     _callback := _callback packet |}.

(** [packet.replace()], a method of [OggPacket.prototype]: the data are
    copied to a buffer of Node.js, which the model does not follow. *)
Definition OggPacket_replace (packet : OggPacket) : error + OggPacket :=
  match proto packet with
  | OggPacket_prototype => inr packet
  | Buffer_prototype => inl packet_replace_is_not_a_function
  end.

(** [packet.e_o_s], a getter of [OggPacket.prototype]; the property is
    [undefined] on any other object. *)
Definition OggPacket_e_o_s (packet : OggPacket) : bool :=
  match proto packet with
  | OggPacket_prototype => truthy (e_o_s packet)
  | Buffer_prototype => false
  end.

(** ** Decoder.ts and DecoderStream *)
Module Decoder.

(** A [DecoderStream] object.  [id] is the identity of the object (its
    allocation number), [_packet_listeners] counts the pending
    [once('_packet', onpacket)] registrations. *)
Record DecoderStream := {
  id : nat;
  serialno : Z;
  packets : list OggPacket;
  _packet_listeners : nat
}.

(** What a [Readable] was handed through [push]. *)
Inductive pushed :=
| push_packet (p : OggPacket)
| push_undefined
| push_null.

(** Everything observable from outside. *)
Inductive event :=
| decoder_emit_stream (stream : nat) (serialno : Z)
| decoder_emit_page (serialno packets : Z)
| stream_emit_page (stream : nat)
| stream_emit_bos (stream : nat)
| stream_emit_eos (stream : nat)
| stream_push (stream : nat) (v : pushed)
| write_callback (err : option error)
| thrown (err : error).

(** The closure of one [pagein] call: [this], the counter [packets] and
    the variable [packet]. *)
Record frame := {
  fr_serialno : Z;
  fr_packets : Z;
  fr_packet : option OggPacket
}.

(** Where the running [_write] is. *)
Inductive control :=
| idle                                   (* no [_write] running *)
| at_sync_write                          (* waiting for [afterWrite] *)
| at_sync_pageout                        (* waiting for [afterPageout] *)
| at_stream_init (serialno packets : Z)  (* inside [new DecoderStream] *)
| at_stream_pagein (stream : DecoderStream) (packets : Z)
    (* [stream.pagein(page, packets, ...)] waiting for its [afterPagein];
       [stream] is what [_stream] returned, of which [pagein] reads the
       constant fields only *)
| at_packetout (fr : frame)              (* waiting for [afterPacketout] *)
| at_packet_read (fr : frame)            (* waiting for [afterPacketRead] *)
| crashed.
    (* an exception went out of a callback of the running [_write]: the
       write callback has not been called and never will be, so that the
       [Writable] starts no other [_write] *)

Record Decoder := {
  _streams : gmap Z DecoderStream;
  next_id : nat;
  ctl : control;
  log : list event
}.

Definition emit (e : event) (d : Decoder) : Decoder :=
  {| _streams := _streams d; next_id := next_id d; ctl := ctl d;
     log := log d ++ [e] |}.

Definition goto (c : control) (d : Decoder) : Decoder :=
  {| _streams := _streams d; next_id := next_id d; ctl := c; log := log d |}.

Definition set_stream (s : DecoderStream) (d : Decoder) : Decoder :=
  {| _streams := <[serialno s := s]> (_streams d); next_id := next_id d;
     ctl := ctl d; log := log d |}.

(** [new Decoder(options)], once [ogg_sync_init] has returned 0. *)
Definition new_Decoder : Decoder :=
  {| _streams := ∅; next_id := 0%nat; ctl := idle; log := [] |}.

(** [new DecoderStream(serialno)]; [r] is what [ogg_stream_init] returned. *)
Definition new_DecoderStream (serialno : Z) (r : Z) (d : Decoder)
  : (error + DecoderStream) * Decoder :=
  if r =? 0 then
    (inr {| id := next_id d; serialno := serialno; packets := [];
            _packet_listeners := 0%nat |},
     {| _streams := _streams d; next_id := S (next_id d); ctl := ctl d;
        log := log d |})
  else (inl (ogg_stream_init_failed r), d).

(** [Decoder._stream(serialno)].  [r] is the answer of [ogg_stream_init],
    which is only asked when the stream has to be created. *)
Definition _stream (serialno : Z) (r : Z) (d : Decoder)
  : (error + DecoderStream) * Decoder :=
  match _streams d !! serialno with
  | Some stream => (inr stream, d)
  | None =>
      match new_DecoderStream serialno r d with
      | (inr stream, d1) =>
          let d2 := set_stream stream d1 in
          (inr stream, emit (decoder_emit_stream (id stream) serialno) d2)
      | (inl err, d1) => (inl err, d1)
      end
  end.

(** [callback(err)] of [_write]: the write is over. *)
Definition callback (err : option error) (d : Decoder) : Decoder :=
  goto idle (emit (write_callback err) d).

(** An exception that nothing catches leaves the callback it was raised in:
    the write is never finished. *)
Definition throw (err : error) (d : Decoder) : Decoder :=
  goto crashed (emit (thrown err) d).

(** [packetout()] inside [pagein]: either the page is exhausted, and
    [callback()] -> [afterPagein] -> [pageout()] asks the sync layer for
    the next page, or [ogg_stream_packetout] is called on a packet that
    [new OggPacket()] made. *)
Definition packetout (fr : frame) (d : Decoder) : Decoder :=
  if fr_packets fr =? 0 then goto at_sync_pageout d
  else goto (at_packetout fr) d.

(** [afterPacketRead(err)], called without argument by [process.nextTick]. *)
Definition afterPacketRead (fr : frame) (d : Decoder) : Decoder :=
  let d1 :=
    match fr_packet fr, _streams d !! fr_serialno fr with
    | Some packet, Some this =>
        if OggPacket_e_o_s packet then
          emit (stream_push (id this) push_null)
            (emit (stream_emit_eos (id this)) d)
        else d
    | _, _ => d
    end in
  packetout {| fr_serialno := fr_serialno fr;
               fr_packets := fr_packets fr - 1;
               fr_packet := fr_packet fr |} d1.

(** [onpacket] of [_read]: shift one packet, push it, and report whether
    its [_callback] has to be run on the next tick. *)
Definition onpacket (this : DecoderStream) (d : Decoder) : bool * Decoder :=
  match packets this with
  | packet :: rest =>
      let this' := {| id := id this; serialno := serialno this;
                      packets := rest;
                      _packet_listeners := _packet_listeners this |} in
      let packet' := {| proto := proto packet;
                        bytes := bytes packet; b_o_s := b_o_s packet;
                        e_o_s := e_o_s packet;
                        granulepos := granulepos packet;
                        packetno := packetno packet;
                        _callback := false |} in
      (_callback packet,
       emit (stream_push (id this) (push_packet packet'))
         (set_stream this' d))
  | [] => (false, emit (stream_push (id this) push_undefined) d)
  end.

(** Runs the [n] pending [once('_packet')] listeners of the stream with
    serial number [s]; the result tells whether one of them scheduled
    [afterPacketRead]. *)
Fixpoint run_listeners (n : nat) (s : Z) (d : Decoder) : bool * Decoder :=
  match n with
  | O => (false, d)
  | S n' =>
      match _streams d !! s with
      | Some this =>
          let '(cb, d1) := onpacket this d in
          let '(cb', d2) := run_listeners n' s d1 in
          (cb || cb', d2)
      | None => (false, d)
      end
  end.

(** [this.emit('_packet')]: the [once] listeners are removed, then run. *)
Definition emit__packet (s : Z) (d : Decoder) : bool * Decoder :=
  match _streams d !! s with
  | Some this =>
      let n := _packet_listeners this in
      let this' := {| id := id this; serialno := serialno this;
                      packets := packets this;
                      _packet_listeners := 0%nat |} in
      run_listeners n s (set_stream this' d)
  | None => (false, d)
  end.

(** [afterPacketout] for [rtn = 1]; [packet] is the object [packetout] made
    and the addon filled.  [packet.replace()] comes first: when the object
    has no such method the [TypeError] leaves [afterPacketout] before
    'bos', before the packet is queued and before '_packet'. *)
Definition got_packet (fr : frame) (packet : OggPacket) (d : Decoder)
  : Decoder :=
  match OggPacket_replace packet with
  | inl err => throw err d
  | inr packet =>
      match _streams d !! fr_serialno fr with
      | Some this =>
          let d1 := if truthy (b_o_s packet)
                    then emit (stream_emit_bos (id this)) d else d in
          let p := {| proto := proto packet;
                      bytes := bytes packet; b_o_s := b_o_s packet;
                      e_o_s := e_o_s packet;
                      granulepos := granulepos packet;
                      packetno := packetno packet;
                      _callback := true |} in
          let this' := {| id := id this; serialno := serialno this;
                          packets := packets this ++ [p];
                          _packet_listeners := _packet_listeners this |} in
          let fr' := {| fr_serialno := fr_serialno fr;
                        fr_packets := fr_packets fr;
                        fr_packet := Some p |} in
          let '(cb, d2) := emit__packet (fr_serialno fr) (set_stream this' d1) in
          if cb then afterPacketRead fr' d2 else goto (at_packet_read fr') d2
      | None => d
      end
  end.

(** The callback chain of [_write], one native answer per step.  An empty
    script leaves the decoder waiting inside the native call. *)
Fixpoint run (script : list Binding.response) (d : Decoder)
  : Decoder * list Binding.response :=
  match script with
  | [] => (d, [])
  | answer :: script' =>
      match ctl d, answer with
      | at_sync_write, Binding.ogg_sync_write rtn =>
          (* afterWrite *)
          if rtn =? 0 then run script' (goto at_sync_pageout d)
          else (callback (Some (ogg_sync_write_error rtn)) d, script')
      | at_sync_pageout, Binding.ogg_sync_pageout rtn serialno packets =>
          (* afterPageout *)
          if rtn =? 1 then
            let d1 := emit (decoder_emit_page serialno packets) d in
            match _streams d1 !! serialno with
            | Some _ =>
                (* [this._stream(serialno)] finds the stream, without a
                   native call; [pagein] is called on what it returns *)
                match _stream serialno 0 d1 with
                | (inr stream, d2) =>
                    run script' (goto (at_stream_pagein stream packets) d2)
                | (inl err, d2) => (throw err d2, script')
                end
            | None => run script' (goto (at_stream_init serialno packets) d1)
            end
          else if rtn =? 0 then (callback None d, script')
          else (callback (Some (ogg_sync_pageout_error rtn)) d, script')
      | at_stream_init serialno packets, Binding.ogg_stream_init r =>
          (* [this._stream(serialno)] creating the stream; [pagein] is
             called on what it returns *)
          match _stream serialno r d with
          | (inr stream, d1) =>
              run script' (goto (at_stream_pagein stream packets) d1)
          | (inl err, d1) => (throw err d1, script')
          end
      | at_stream_pagein this packets, Binding.ogg_stream_pagein r =>
          (* afterPagein of DecoderStream.pagein *)
          if r =? 0 then
            run script'
              (packetout {| fr_serialno := serialno this;
                            fr_packets := packets;
                            fr_packet := None |}
                 (emit (stream_emit_page (id this)) d))
          else (callback (Some (ogg_stream_pagein_error r)) d, script')
      | at_packetout fr,
        Binding.ogg_stream_packetout rtn bytes b_o_s e_o_s granulepos packetno =>
          (* afterPacketout *)
          if rtn =? 1 then
            run script'
              (got_packet fr
                 (ogg_stream_packetout_fills new_OggPacket
                    bytes b_o_s e_o_s granulepos packetno) d)
          else if rtn =? -1 then run script' (packetout fr d)
          else (callback (Some (ogg_stream_packetout_error rtn)) d, script')
      | _, _ => (d, script)
      end
  end.

(** What happens around the decoder. *)
Inductive input :=
| write                     (* the Writable machinery calls [_write(chunk)] *)
| read (serialno : Z).      (* the Readable machinery calls [_read] on a stream *)

(** [DecoderStream._read]. *)
Definition _read (s : Z) (d : Decoder) : Decoder :=
  match _streams d !! s with
  | Some this =>
      match packets this with
      | _ :: _ =>
          let '(cb, d1) := onpacket this d in
          if cb then
            match ctl d1 with
            | at_packet_read fr => afterPacketRead fr d1
            | _ => d1
            end
          else d1
      | [] =>
          set_stream {| id := id this; serialno := serialno this;
                        packets := [];
                        _packet_listeners := S (_packet_listeners this) |} d
      end
  | None => d
  end.

Definition step (i : input) (w : Decoder * list Binding.response)
  : Decoder * list Binding.response :=
  let '(d, script) := w in
  match i with
  | write =>
      match ctl d with
      | idle => run script (goto at_sync_write d)
      | _ => (d, script)
      end
  | read s =>
      let d1 := _read s d in
      run script d1
  end.

Definition exec (ins : list input) (w : Decoder * list Binding.response)
  : Decoder * list Binding.response :=
  fold_left (fun w i => step i w) ins w.

(** *** Elementary updates

    Every function above changes the decoder through four kinds of
    updates only; [evolve] is their closure.  Properties of whole runs are
    proved once, by induction on [evolve]. *)

Definition is_announcement (e : event) : bool :=
  match e with decoder_emit_stream _ _ => true | _ => false end.

(** Every table entry sits under its own serial number. *)
Definition keyed (d : Decoder) : Prop :=
  ∀ s stream, _streams d !! s = Some stream → serialno stream = s.

Inductive evolve : Decoder → Decoder → Prop :=
| evolve_refl d : evolve d d
| evolve_trans d1 d2 d3 : evolve d1 d2 → evolve d2 d3 → evolve d1 d3
| evolve_emit d e : is_announcement e = false → evolve d (emit e d)
| evolve_goto d c : evolve d (goto c d)
| evolve_update d this this' :
    _streams d !! serialno this = Some this →
    serialno this' = serialno this → id this' = id this →
    evolve d (set_stream this' d)
| evolve_create d s :
    _streams d !! s = None →
    evolve d (snd (_stream s 0 d)).

(** Number of ['stream'] events for serial number [s]. *)
Fixpoint announcements (s : Z) (l : list event) : nat :=
  match l with
  | [] => O
  | decoder_emit_stream _ s' :: l' =>
      if bool_decide (s' = s) then S (announcements s l')
      else announcements s l'
  | _ :: l' => announcements s l'
  end.

(** *** Invariants and scenarios used by the proofs *)

(** The table's domain and the ['stream'] events go together. *)
Definition announced_once (d : Decoder) : Prop :=
  ∀ s, announcements s (log d) =
       match _streams d !! s with Some _ => 1%nat | None => 0%nat end.

(** The identities of the stream objects of the table have been handed
    out: the next one is new. *)
Definition fresh_ids (d : Decoder) : Prop :=
  ∀ s stream, _streams d !! s = Some stream → (id stream < next_id d)%nat.

(** A function [f] of the model stays inside [evolve] and keeps [keyed]. *)
Definition tame (d d' : Decoder) : Prop := evolve d d' ∧ keyed d'.


(** The decoder waiting for the first packet of a page of stream 7. *)
Definition gap_state : Decoder :=
  (exec [write]
     (new_Decoder,
      [Binding.ogg_sync_write 0; Binding.ogg_sync_pageout 1 7 1;
       Binding.ogg_stream_init 0; Binding.ogg_stream_pagein 0])).1.


(** *** Finer updates, and what the log and the queues look like *)

(** The stream object an event belongs to. *)
Definition stream_of (e : event) : option nat :=
  match e with
  | stream_emit_page i | stream_emit_bos i | stream_emit_eos i
  | stream_push i _ => Some i
  | _ => None
  end.

(** The events that end a [_write]: its callback, or an exception. *)
Definition is_finish (e : event) : bool :=
  match e with write_callback _ | thrown _ => true | _ => false end.

(** What a stream does with a packet: 'bos', 'eos', and what it pushes. *)
Definition is_delivery (e : event) : bool :=
  match e with
  | stream_emit_bos _ | stream_emit_eos _ | stream_push _ _ => true
  | _ => false
  end.

(** The control states in which the decoder waits for an answer of the
    addon. *)
Definition awaits_native (c : control) : bool :=
  match c with
  | idle | crashed | at_packet_read _ => false
  | _ => true
  end.

(** The stream a pending [pagein] was called on is the one of the table. *)
Definition pagein_on_entry (d : Decoder) (c : control) : Prop :=
  ∀ this n, c = at_stream_pagein this n →
  ∃ x, _streams d !! serialno this = Some x ∧ id x = id this.

(** The updates a running [_write] makes before it ends, as long as no
    packet is queued. *)
Inductive advance : Decoder → Decoder → Prop :=
| advance_refl d : advance d d
| advance_trans d1 d2 d3 : advance d1 d2 → advance d2 d3 → advance d1 d3
| advance_page d s n : advance d (emit (decoder_emit_page s n) d)
| advance_stream_page d this :
    _streams d !! serialno this = Some this →
    advance d (emit (stream_emit_page (id this)) d)
| advance_goto d c :
    awaits_native c = true → pagein_on_entry d c → advance d (goto c d)
| advance_listen d this this' :
    _streams d !! serialno this = Some this →
    serialno this' = serialno this → id this' = id this →
    packets this' = [] →
    advance d (set_stream this' d)
| advance_create d s :
    _streams d !! s = None →
    advance d (snd (_stream s 0 d)).

(** Where the decoder is once the event [e] has ended the write. *)
Definition finished_in (e : event) : control :=
  match e with thrown _ => crashed | _ => idle end.

(** A run that ends: updates as above, then one finishing event. *)
Definition ends (d d' : Decoder) : Prop :=
  ∃ dm e, advance d dm ∧ is_finish e = true
          ∧ d' = goto (finished_in e) (emit e dm).

(** Every event of a stream comes after the 'stream' event that announced
    the stream object. *)
Definition announced_first (l : list event) : Prop :=
  ∀ l1 e l2 i, l = l1 ++ e :: l2 → stream_of e = Some i →
  ∃ s, decoder_emit_stream i s ∈ l1.

Definition known (d : Decoder) : Prop :=
  (∀ s this, _streams d !! s = Some this →
     decoder_emit_stream (id this) s ∈ log d)
  ∧ announced_first (log d).

(** No stream holds a packet. *)
Definition quiet (d : Decoder) : Prop :=
  ∀ s this, _streams d !! s = Some this → packets this = [].

(** What holds of the decoder in every state it reaches. *)
Definition steady (d : Decoder) : Prop :=
  keyed d ∧ quiet d ∧ (∀ fr, ctl d ≠ at_packet_read fr)
  ∧ pagein_on_entry d (ctl d).

End Decoder.

(** ** Encoder.ts and EncoderStream.ts *)
Module Encoder.

(** *** JavaScript numbers, as far as [(Math.random() * 1000000) | 0]
    needs them

    A finite non-negative double is [mant / 2^expo] with a 53-bit
    mantissa. *)
Record double := { mant : Z; expo : Z }.

(** What [Math.random()] may return: a double in [0, 1). *)
Definition is_random (x : double) : Prop :=
  0 <= mant x < 2 ^ 53 ∧ 0 <= expo x <= 1074 ∧ mant x < 2 ^ expo x.

(** Rounds the integer [n] to 53 significant bits, to nearest, ties to
    even. *)
Definition round53 (n : Z) : Z :=
  if Z.log2 n <=? 52 then n
  else
    let s := Z.log2 n - 52 in
    let q := n / 2 ^ s in
    let r := n mod 2 ^ s in
    let half := 2 ^ (s - 1) in
    let q' := if (half <? r) || ((r =? half) && Z.odd q) then q + 1 else q in
    q' * 2 ^ s.

(** The double multiplication [x * 1000000]. *)
Definition times_1000000 (x : double) : double :=
  {| mant := round53 (mant x * 1000000); expo := expo x |}.

(** [x | 0]: ToInt32 of a double. *)
Definition to_int32 (x : double) : Z :=
  let n := Z.quot (mant x) (2 ^ expo x) mod 2 ^ 32 in
  if 2 ^ 31 <=? n then n - 2 ^ 32 else n.

(** *** EncoderStream.ts *)

(** An [EncoderStream] object.  [page_listeners] counts how many times
    [Encoder._onpage] was attached with [on('page', ...)]. *)
Record EncoderStream := {
  serialno : Z;
  page_listeners : nat
}.

(** [new EncoderStream(serialno)].  [arg] is the argument [serialno],
    [None] for [undefined]; [rnd] is what [Math.random()] returns and [r]
    the answer of [ogg_stream_init]. *)
Definition new_EncoderStream (arg : option Z) (rnd : double) (r : Z)
  : error + EncoderStream :=
  let n :=
    match arg with
    | None => to_int32 (times_1000000 rnd)
    | Some n => n
    end in
  if r =? 0 then inr {| serialno := n; page_listeners := 0%nat |}
  else inl (ogg_stream_init_failed r).

(** The argument of [write] / [_write]: an [ogg_packet] Buffer or a
    command object, with its [flush] and [pageout] properties. *)
Record packet := {
  is_buffer : bool;
  flush_command : bool;
  pageout_command : bool
}.

(** *** Encoder.ts

    The record holds the fields of the [Encoder], what it pushed to its
    readable side, and the [EncoderStream] objects it created ([objects],
    indexed by object identity). *)
Record Encoder := {
  _streams : gmap Z nat;
  _needsEnd : bool;
  _queue : list (list byte);
  _page_listeners : nat;              (* pending [once('_page', output)] *)
  pushed : list (option (list byte)); (* [None] is [push(null)] *)
  objects : gmap nat EncoderStream;
  next_id : nat
}.

Definition new_Encoder : Encoder :=
  {| _streams := ∅; _needsEnd := false; _queue := []; _page_listeners := 0%nat;
     pushed := []; objects := ∅; next_id := 0%nat |}.

(** [this._streams[serialno]]: nothing is ever stored under the key
    ["undefined"]. *)
Definition lookup_stream (arg : option Z) (e : Encoder) : option nat :=
  match arg with
  | Some n => _streams e !! n
  | None => None
  end.

(** [Encoder.stream(serialno)], [arg] being the argument; the result is
    the identity of the returned [EncoderStream], or the exception of its
    constructor. *)
Definition stream (arg : option Z) (rnd : double) (r : Z) (e : Encoder)
  : (error + nat) * Encoder :=
  match lookup_stream arg e with
  | Some s => (inr s, e)
  | None =>
      match new_EncoderStream arg rnd r with
      | inr s =>
          let this := next_id e in
          (* s.on('page', this._onpage) *)
          let s' := {| serialno := serialno s;
                       page_listeners := S (page_listeners s) |} in
          (inr this,
           {| _streams := <[serialno s := this]> (_streams e);
              _needsEnd := _needsEnd e; _queue := _queue e;
              _page_listeners := _page_listeners e; pushed := pushed e;
              objects := <[this := s']> (objects e);
              next_id := S (next_id e) |})
      | inl err => (inl err, e)
      end
  end.

(** [new Buffer(size)]. *)
Definition new_Buffer (size : nat) : list byte := replicate size x00.

(** [output] of [_read]. *)
Definition output (e : Encoder) : Encoder :=
  let buf := concat (_queue e) in
  {| _streams := _streams e;
     _needsEnd := bool_decide (size (_streams e) = 0%nat);
     _queue := [];
     _page_listeners := _page_listeners e;
     pushed := pushed e ++ [Some buf];
     objects := objects e; next_id := next_id e |}.

(** [this.emit('_page')]: the [once] listeners are removed, then run. *)
Definition emit__page (e : Encoder) : Encoder :=
  Nat.iter (_page_listeners e) output
    {| _streams := _streams e; _needsEnd := _needsEnd e; _queue := _queue e;
       _page_listeners := 0%nat; pushed := pushed e;
       objects := objects e; next_id := next_id e |}.

(** [Encoder._onpage(stream, page, header_len, body_len, e_o_s)]. *)
Definition _onpage (stream : EncoderStream) (page : Binding.ogg_page)
    (header_len body_len e_o_s : Z) (e : Encoder) : Encoder :=
  let streams :=
    if truthy e_o_s then delete (serialno stream) (_streams e)
    else _streams e in
  let data :=
    Binding.ogg_page_to_buffer page
      (new_Buffer (Z.to_nat (header_len + body_len))) in
  emit__page
    {| _streams := streams; _needsEnd := _needsEnd e;
       _queue := _queue e ++ [data];
       _page_listeners := _page_listeners e; pushed := pushed e;
       objects := objects e; next_id := next_id e |}.

(** [Encoder._read(bytes)]. *)
Definition _read (e : Encoder) : Encoder :=
  if _needsEnd e then
    {| _streams := _streams e; _needsEnd := _needsEnd e; _queue := _queue e;
       _page_listeners := _page_listeners e;
       pushed := pushed e ++ [None];
       objects := objects e; next_id := next_id e |}
  else
    match _queue e with
    | _ :: _ => output e
    | [] =>
        {| _streams := _streams e; _needsEnd := _needsEnd e; _queue := _queue e;
           _page_listeners := S (_page_listeners e); pushed := pushed e;
           objects := objects e; next_id := next_id e |}
    end.

(** [this.emit('page', this, og, hlen, blen, e_o_s)] on the stream object
    [this]: every attached listener is [Encoder._onpage]. *)
Definition emit_page (this : nat) (og : Binding.ogg_page)
    (hlen blen e_o_s : Z) (e : Encoder) : Encoder :=
  match objects e !! this with
  | Some s => Nat.iter (page_listeners s) (_onpage s og hlen blen e_o_s) e
  | None => e
  end.

(** How a callback-taking method ended: [None] when the callback was not
    invoked, [Some err] for [callback(err)]. *)
Definition completion := option (option error).

(** [EncoderStream._flush(callback)]. *)
Fixpoint _flush (script : list Binding.response) (this : nat) (e : Encoder)
  : completion * Encoder * list Binding.response :=
  match script with
  | Binding.ogg_stream_flush rtn og hlen blen e_o_s :: script' =>
      if rtn =? 0 then (Some None, e, script')
      else _flush script' this (emit_page this og hlen blen e_o_s e)
  | _ => (None, e, script)
  end.

(** [EncoderStream._pageout(callback)]. *)
Fixpoint _pageout (script : list Binding.response) (this : nat) (e : Encoder)
  : completion * Encoder * list Binding.response :=
  match script with
  | Binding.ogg_stream_pageout rtn og hlen blen e_o_s :: script' =>
      if rtn =? 0 then (Some None, e, script')
      else _pageout script' this (emit_page this og hlen blen e_o_s e)
  | _ => (None, e, script)
  end.

(** [checkCommand(err)] inside [_write]. *)
Definition checkCommand (p : packet) (err : option error)
    (script : list Binding.response) (this : nat) (e : Encoder)
  : completion * Encoder * list Binding.response :=
  match err with
  | Some _ => (Some err, e, script)
  | None =>
      if flush_command p then _flush script this e
      else if pageout_command p then _pageout script this e
      else (Some None, e, script)
  end.

(** [EncoderStream._write(packet, encoding, callback)], with [_packetin]
    inlined. *)
Definition _write (p : packet) (script : list Binding.response)
    (this : nat) (e : Encoder)
  : completion * Encoder * list Binding.response :=
  if is_buffer p then
    match script with
    | Binding.ogg_stream_packetin rtn :: script' =>
        if rtn =? 0 then checkCommand p None script' this e
        else checkCommand p (Some (ogg_stream_packetin_error rtn)) script' this e
    | _ => (None, e, script)
    end
  else checkCommand p None script this e.

(** [EncoderStream.write(packet, encoding, callback)]: the override has
    an empty body; it neither reaches [_write] nor calls [callback]. *)
Definition write (p : packet) (script : list Binding.response)
    (this : nat) (e : Encoder)
  : completion * Encoder * list Binding.response :=
  (None, e, script).

(** [EncoderStream.pageout(callback)]:
    [this.write.call(this, { pageout: true }, callback)]. *)
Definition pageout (script : list Binding.response) (this : nat) (e : Encoder)
  : completion * Encoder * list Binding.response :=
  write {| is_buffer := false; flush_command := false;
           pageout_command := true |} script this e.

(** [EncoderStream.flush(callback)]:
    [this.write.call(this, { flush: true }, callback)]. *)
Definition flush (script : list Binding.response) (this : nat) (e : Encoder)
  : completion * Encoder * list Binding.response :=
  write {| is_buffer := false; flush_command := true;
           pageout_command := false |} script this e.

(** What happens around the encoder. *)
Inductive input :=
| call_stream (arg : option Z) (rnd : double) (r : Z)
| page (this : nat) (og : Binding.ogg_page) (hlen blen e_o_s : Z)
| read.

Definition step (i : input) (e : Encoder) : Encoder :=
  match i with
  | call_stream arg rnd r => snd (stream arg rnd r e)
  | page this og hlen blen e_o_s => emit_page this og hlen blen e_o_s e
  | read => _read e
  end.

Definition exec (ins : list input) (e : Encoder) : Encoder :=
  fold_left (fun e i => step i e) ins e.

(** Every stream object carries [Encoder._onpage] exactly once. *)
Definition attached_once (e : Encoder) : Prop :=
  ∀ this s, objects e !! this = Some s → page_listeners s = 1%nat.

(** Every table entry refers to a stream object. *)
Definition table_live (e : Encoder) : Prop :=
  ∀ n this, _streams e !! n = Some this → is_Some (objects e !! this).

(** An answer of [ogg_stream_flush] that hands a page over. *)
Definition flushed_page (a : Binding.response) : Prop :=
  match a with
  | Binding.ogg_stream_flush rtn _ _ _ _ => rtn ≠ 0
  | _ => False
  end.

(** The page handed over carries the end-of-stream flag. *)
Definition carries_eos (a : Binding.response) : bool :=
  match a with
  | Binding.ogg_stream_flush _ _ _ _ e_o_s => truthy e_o_s
  | _ => false
  end.

(** The buffer [_onpage] queues for the page handed over. *)
Definition page_buffer (a : Binding.response) : list byte :=
  match a with
  | Binding.ogg_stream_flush _ og hlen blen _ =>
      Binding.ogg_page_to_buffer og (new_Buffer (Z.to_nat (hlen + blen)))
  | _ => []
  end.

(** *** Invariant and scenarios used by the proofs *)

(** The invariant of the encoder. *)
Definition inv (e : Encoder) : Prop := attached_once e ∧ table_live e.

(** A draw of [Math.random()] near 7.6e-6, and an encoder whose only
    stream was opened with serial number 7. *)
Definition colliding_draw : double := {| mant := 1; expo := 17 |}.

Definition encoder_with_7 : Encoder :=
  (stream (Some 7) colliding_draw 0 new_Encoder).2.

(** A page of four header bytes and one body byte, and the page struct
    of an answer that hands no page over. *)
Definition a_page : Binding.ogg_page :=
  {| Binding.header := [x4f; x67; x67; x53]; Binding.body := [x41] |}.

Definition no_page : Binding.ogg_page :=
  {| Binding.header := []; Binding.body := [] |}.

(** One stream is opened, emits its last page, and the output is read. *)
Definition drained_encoder_inputs : list input :=
  [call_stream (Some 7) colliding_draw 0; page 0 a_page 4 1 1; read].

(** *** Further invariants and measures of the encoder *)

(** Object identities are handed out in order, and every table entry sits
    under the serial number of the stream it refers to. *)
Definition well_formed (e : Encoder) : Prop :=
  (∀ this s, objects e !! this = Some s → (this < next_id e)%nat)
  ∧ (∀ n this, _streams e !! n = Some this →
       ∃ s, objects e !! this = Some s ∧ serialno s = n).

(** A reader waits only on an empty queue of an encoder that has not
    ended. *)
Definition waiting_sound (e : Encoder) : Prop :=
  (0 < _page_listeners e)%nat → _queue e = [] ∧ _needsEnd e = false.

(** The bytes the encoder has pushed so far, followed by the bytes it still
    holds in its queue. *)
Definition output_bytes (e : Encoder) : list byte :=
  concat (omap id (pushed e)) ++ concat (_queue e).

(** The bytes an input brings into the encoder: the buffer of the page, when
    the emitting object is one of the encoder's streams. *)
Definition page_bytes (i : input) (e : Encoder) : list byte :=
  match i with
  | page this og hlen blen _ =>
      match objects e !! this with
      | Some _ =>
          Binding.ogg_page_to_buffer og (new_Buffer (Z.to_nat (hlen + blen)))
      | None => []
      end
  | _ => []
  end.

Fixpoint received (ins : list input) (e : Encoder) : list byte :=
  match ins with
  | [] => []
  | i :: ins' => page_bytes i e ++ received ins' (step i e)
  end.

(** Number of [_read] calls among the inputs. *)
Fixpoint reads (ins : list input) : nat :=
  match ins with
  | [] => O
  | read :: ins' => S (reads ins')
  | _ :: ins' => reads ins'
  end.




(** The serial number [stream(arg)] looks for or gives to a new stream. *)
Definition requested_serial (arg : option Z) (rnd : double) : Z :=
  match arg with
  | Some n => n
  | None => to_int32 (times_1000000 rnd)
  end.

(** A second stream is opened after the output has ended, emits a page, and
    the output is read again. *)
Definition late_inputs : list input :=
  [call_stream (Some 9) colliding_draw 0; page 1 a_page 4 1 0; read].


(** The only stream has ended and the output has been read; then a second
    stream is opened and emits a page that does not end it. *)
Definition late_page_inputs : list input :=
  drained_encoder_inputs
  ++ [call_stream (Some 9) colliding_draw 0; page 1 a_page 4 1 0].
(** A packet Buffer that carries the [flush] command. *)
Definition flushing_packet : packet :=
  {| is_buffer := true; flush_command := true; pageout_command := false |}.

End Encoder.

(** ** The page format (specification sections 4.1, 4.2 and 6)

    The wrappers never look inside a page: framing, checksum and parsing
    are done by libogg behind [./binding], whose sources are not part of
    the TypeScript files.  The definitions of this module follow the
    specification's description of the format. *)
Module PageCodec.

#[global] Instance byte_eq_decision : EqDecision byte := byte_eq_dec.

Definition byte_to_Z (b : byte) : Z := Z.of_N (Byte.to_N b).

Definition byte_of_Z (z : Z) : byte :=
  match Byte.of_N (Z.to_N (z mod 256)) with
  | Some b => b
  | None => x00
  end.

(** Modelled from the spec: the [Crc32Ogg] component (section 4.1), which
    is libogg's and absent from the TypeScript sources.  Polynomial
    0x04c11db7, no reflection, initial value 0, no final XOR, driven by a
    256-entry table. *)
Definition crc_polynomial : Z := 0x04c11db7.

(** Modelled from the spec: the arithmetic of [Crc32Ogg] is 32-bit. *)
Definition uint32 (x : Z) : Z := Z.land x 0xffffffff.

(** Modelled from the spec: [n] steps of the division by the polynomial,
    most significant bit first (no reflection), absent from src/. *)
Fixpoint crc_shift (n : nat) (r : Z) : Z :=
  match n with
  | O => r
  | S n' =>
      crc_shift n'
        (if Z.testbit r 31 then uint32 (Z.lxor (Z.shiftl r 1) crc_polynomial)
         else uint32 (Z.shiftl r 1))
  end.

(** Modelled from the spec: the precomputed 256-entry table of
    [Crc32Ogg], absent from src/. *)
Definition crc_table : list Z :=
  Eval vm_compute in
    List.map (fun i => crc_shift 8 (Z.shiftl (Z.of_nat i) 24)) (seq 0 256).

(** Modelled from the spec: [crc_update(accumulator, bytes)] and
    [crc(bytes)] of [Crc32Ogg], absent from src/, one table look-up per
    byte. *)
Definition crc_step (acc : Z) (b : byte) : Z :=
  Z.lxor (uint32 (Z.shiftl acc 8))
    (nth (Z.to_nat (Z.lxor (Z.land (Z.shiftr acc 24) 0xff) (byte_to_Z b)))
       crc_table 0).

Definition crc_update (acc : Z) (bs : list byte) : Z :=
  fold_left crc_step bs acc.

Definition crc (bs : list byte) : Z := crc_update 0 bs.

(** Modelled from the spec: the [Page] of the data model (section 3);
    the native [ogg_page] struct is opaque to the TypeScript sources. *)
Record Page := {
  header_type : byte;
  granule_position : Z;       (* signed 64-bit *)
  serial_number : Z;          (* unsigned 32-bit *)
  page_sequence_number : Z;   (* unsigned 32-bit *)
  checksum : Z;               (* unsigned 32-bit *)
  segment_table : list byte;
  body : list byte
}.

(** Modelled from the spec: the widths the data model gives to the
    integer fields of a [Page]. *)
Definition well_typed (p : Page) : Prop :=
  - 2 ^ 63 <= granule_position p < 2 ^ 63 ∧
  0 <= serial_number p < 2 ^ 32 ∧
  0 <= page_sequence_number p < 2 ^ 32 ∧
  0 <= checksum p < 2 ^ 32.

Definition sum_segments (t : list byte) : Z :=
  fold_right (fun b acc => byte_to_Z b + acc) 0 t.

(** Modelled from the spec: "structurally valid" (section 8):
    segment_count at most 255, body length equal to the sum of the
    segment-table entries. *)
Definition structurally_valid (p : Page) : Prop :=
  (length (segment_table p) <= 255)%nat ∧
  Z.of_nat (length (body p)) = sum_segments (segment_table p).

(** Modelled from the spec: the little-endian integers of the on-wire
    layout (section 6), written and read by libogg, absent from src/. *)
Fixpoint le_bytes (n : nat) (v : Z) : list byte :=
  match n with
  | O => []
  | S n' => byte_of_Z (v mod 256) :: le_bytes n' (v / 256)
  end.

Definition le_value (bs : list byte) : Z :=
  fold_right (fun b acc => byte_to_Z b + 256 * acc) 0 bs.

(** A 64-bit pattern read as a signed integer. *)
Definition signed64 (g : Z) : Z := if 2 ^ 63 <=? g then g - 2 ^ 64 else g.

Definition capture_pattern : list byte := [x4f; x67; x67; x53].

Definition with_checksum (c : Z) (p : Page) : Page :=
  {| header_type := header_type p; granule_position := granule_position p;
     serial_number := serial_number p;
     page_sequence_number := page_sequence_number p;
     checksum := c;
     segment_table := segment_table p; body := body p |}.

(** Modelled from the spec: the on-wire page layout (section 6), absent
    from src/, with the checksum field as it is in [p]. *)
Definition layout (p : Page) : list byte :=
  capture_pattern
  ++ [x00]
  ++ [header_type p]
  ++ le_bytes 8 (granule_position p mod 2 ^ 64)
  ++ le_bytes 4 (serial_number p)
  ++ le_bytes 4 (page_sequence_number p)
  ++ le_bytes 4 (checksum p)
  ++ [byte_of_Z (Z.of_nat (length (segment_table p)))]
  ++ segment_table p
  ++ body p.

(** Modelled from the spec: the CRC over the full page with the checksum
    field zeroed (sections 4.2 and 6), absent from src/. *)
Definition page_crc (p : Page) : Z := crc (layout (with_checksum 0 p)).

(** Modelled from the spec: [serialize(Page) -> bytes] (section 4.2),
    absent from the TypeScript sources: writes the header fields,
    computes the CRC with checksum = 0, then patches the checksum
    field. *)
Definition serialize (p : Page) : list byte :=
  layout (with_checksum (page_crc p) p).

(** Modelled from the spec: the results of [parse] (section 4.2). *)
Inductive parse_result :=
| parsed (page : Page) (bytes_consumed : nat)
| NotAPage
| Truncated
| CorruptPage (skip : nat).

(** Modelled from the spec: [parse(buffer, offset)] (section 4.2), absent
    from the TypeScript sources: capture pattern, version, header
    fields, segment table, body, then the checksum is verified by
    serializing with checksum = 0. *)
Definition parse (buffer : list byte) (offset : nat) : parse_result :=
  let b := drop offset buffer in
  if negb (bool_decide (take 4 b = capture_pattern)) then NotAPage
  else if (length b <? 27)%nat then Truncated
  else if negb (bool_decide (take 1 (drop 4 b) = [x00])) then CorruptPage 4
  else
    let n := Z.to_nat (le_value (take 1 (drop 26 b))) in
    if (length b <? 27 + n)%nat then Truncated
    else
      let table := take n (drop 27 b) in
      let len := Z.to_nat (sum_segments table) in
      if (length b <? 27 + n + len)%nat then Truncated
      else
        let p :=
          {| header_type := nth 5 b x00;
             granule_position := signed64 (le_value (take 8 (drop 6 b)));
             serial_number := le_value (take 4 (drop 14 b));
             page_sequence_number := le_value (take 4 (drop 18 b));
             checksum := le_value (take 4 (drop 22 b));
             segment_table := table;
             body := take len (drop (27 + n) b) |} in
        if page_crc p =? checksum p then parsed p (27 + n + len)
        else CorruptPage 4.

(** A page of two segments (2 and 0 bytes) whose checksum field holds the
    CRC of the page. *)
Definition stamped_page : Page :=
  {| header_type := x02; granule_position := -1; serial_number := 7;
     page_sequence_number := 0; checksum := 3237561452;
     segment_table := [x02; x00]; body := [x41; x42] |}.

(** The same page before its checksum has been computed. *)
Definition unstamped_page : Page := with_checksum 0 stamped_page.

End PageCodec.

(** * Proofs *)

(** ** The decoder's elementary updates *)
Module DecoderFacts.
Import Decoder.

Lemma goto_ctl d : goto (ctl d) d = d.
Proof. by destruct d. Qed.

Lemma evolve_keyed d d' : evolve d d' → keyed d → keyed d'.
Proof.
  induction 1 as [| ? ? ? _ IH1 _ IH2 | | | d this this' Hin Hs Hid | d s Hnone];
    intros K; auto.
  - intros s stream. cbn. rewrite Hs. intros Hl.
    apply lookup_insert_Some in Hl as [[<- <-]|[_ Hl]]; [done | by apply K].
  - unfold _stream. rewrite Hnone. intros s' stream Hl. cbn in Hl.
    apply lookup_insert_Some in Hl as [[<- <-]|[_ Hl]]; [done | by apply K].
Qed.


(** The identities in the table stay below the next one to hand out. *)
Lemma evolve_fresh_ids d d' : evolve d d' → fresh_ids d → fresh_ids d'.
Proof.
  induction 1 as [| ? ? ? _ IH1 _ IH2 | | | d this this' Hin Hs Hid | d s Hnone];
    intros F; auto.
  - intros s stream. cbn. rewrite Hs. intros Hl.
    apply lookup_insert_Some in Hl as [[_ <-]|[_ Hl]]; cbn; [|by eapply F].
    rewrite Hid. by eapply F.
  - unfold _stream. rewrite Hnone. intros s' stream Hl. cbn in Hl |- *.
    apply lookup_insert_Some in Hl as [[_ <-]|[_ Hl]]; [cbn; lia|].
    specialize (F _ _ Hl). lia.
Qed.

Lemma announcements_app s l1 l2 :
  announcements s (l1 ++ l2) = (announcements s l1 + announcements s l2)%nat.
Proof.
  induction l1 as [|e l1 IH]; [done|].
  destruct e; cbn; try done. case_bool_decide; cbn; lia.
Qed.

Lemma announcements_snoc_other s l e :
  is_announcement e = false → announcements s (l ++ [e]) = announcements s l.
Proof. intros He. rewrite announcements_app. destruct e; cbn in *; (done || lia). Qed.

Lemma evolve_announced_once d d' :
  evolve d d' → announced_once d → announced_once d'.
Proof.
  induction 1 as [| ? ? ? _ IH1 _ IH2 | d e He | | d this this' Hin Hs Hid | d s Hnone];
    intros A; auto.
  - intros s. cbn. rewrite announcements_snoc_other; auto.
  - intros s. cbn. rewrite Hs. rewrite (A s).
    destruct (decide (serialno this = s)) as [<-|Hne].
    + by rewrite lookup_insert_eq, Hin.
    + by rewrite lookup_insert_ne.
  - intros s'. unfold _stream. rewrite Hnone. cbn.
    rewrite announcements_app, (A s'). cbn.
    destruct (decide (s = s')) as [<-|Hne].
    + rewrite lookup_insert_eq, Hnone. by rewrite bool_decide_eq_true_2.
    + rewrite lookup_insert_ne by done. rewrite bool_decide_eq_false_2 by done.
      destruct (_streams d !! s'); lia.
Qed.

Lemma tame_refl d : keyed d → tame d d.
Proof. split; [constructor | done]. Qed.

Lemma tame_trans d1 d2 d3 : tame d1 d2 → tame d2 d3 → tame d1 d3.
Proof. intros [? ?] [? ?]. split; [by eapply evolve_trans | done]. Qed.

Lemma tame_of_evolve d d' : keyed d → evolve d d' → tame d d'.
Proof. intros K E. split; [done | by eapply evolve_keyed]. Qed.

Lemma tame_emit d e : keyed d → is_announcement e = false → tame d (emit e d).
Proof. intros. apply tame_of_evolve; [done | by constructor]. Qed.

Lemma tame_goto d c : keyed d → tame d (goto c d).
Proof. intros. apply tame_of_evolve; [done | constructor]. Qed.

Lemma tame_update d s this this' :
  keyed d → _streams d !! s = Some this →
  serialno this' = serialno this → id this' = id this →
  tame d (set_stream this' d).
Proof.
  intros K Hl Hs Hid. apply tame_of_evolve; [done|].
  apply evolve_update with this; [|done..].
  by rewrite (K _ _ Hl).
Qed.

Lemma tame_callback d err : keyed d → tame d (callback err d).
Proof.
  intros K. unfold callback.
  pose proof (tame_emit d (write_callback err) K eq_refl) as T.
  eapply tame_trans; [exact T | apply tame_goto, T].
Qed.

Lemma tame_throw d err : keyed d → tame d (throw err d).
Proof.
  intros K. unfold throw.
  pose proof (tame_emit d (thrown err) K eq_refl) as T.
  eapply tame_trans; [exact T | apply tame_goto, T].
Qed.

Lemma tame_packetout fr d : keyed d → tame d (packetout fr d).
Proof. intros K. unfold packetout. destruct (fr_packets fr =? 0); by apply tame_goto. Qed.

Lemma tame_afterPacketRead fr d : keyed d → tame d (afterPacketRead fr d).
Proof.
  intros K. unfold afterPacketRead.
  set (d1 := match fr_packet fr with Some _ => _ | None => _ end).
  assert (tame d d1) as T.
  { subst d1. destruct (fr_packet fr) as [p|]; [|by apply tame_refl].
    destruct (_streams d !! fr_serialno fr) as [this|]; [|by apply tame_refl].
    destruct (OggPacket_e_o_s p); [|by apply tame_refl].
    pose proof (tame_emit d (stream_emit_eos (id this)) K eq_refl) as T.
    eapply tame_trans; [exact T | by apply tame_emit; [apply T|]]. }
  eapply tame_trans; [exact T|]. apply tame_packetout, T.
Qed.

Lemma tame_onpacket s this d :
  keyed d → _streams d !! s = Some this → tame d (snd (onpacket this d)).
Proof.
  intros K Hl. unfold onpacket. destruct (packets this) as [|p rest]; cbn.
  - by apply tame_emit.
  - match goal with |- context [set_stream ?x d] =>
      assert (tame d (set_stream x d)) as T by (by eapply tame_update) end.
    eapply tame_trans; [exact T | by apply tame_emit; [apply T|]].
Qed.

Lemma tame_run_listeners n s d :
  keyed d → tame d (snd (run_listeners n s d)).
Proof.
  revert d. induction n as [|n IH]; intros d K; cbn; [by apply tame_refl|].
  destruct (_streams d !! s) as [this|] eqn:Hl; [|by apply tame_refl].
  pose proof (tame_onpacket s this d K Hl) as T.
  destruct (onpacket this d) as [cb d1]. cbn in T.
  pose proof (IH d1 (proj2 T)) as T'.
  destruct (run_listeners n s d1) as [cb' d2]. cbn in *.
  by eapply tame_trans.
Qed.

Lemma tame_emit__packet s d : keyed d → tame d (snd (emit__packet s d)).
Proof.
  intros K. unfold emit__packet.
  destruct (_streams d !! s) as [this|] eqn:Hl; [|by apply tame_refl].
  match goal with |- context [set_stream ?x d] =>
    assert (tame d (set_stream x d)) as T by (by eapply tame_update) end.
  eapply tame_trans; [exact T | apply tame_run_listeners, T].
Qed.

Lemma tame_got_packet fr p d : keyed d → tame d (got_packet fr p d).
Proof.
  intros K. unfold got_packet.
  destruct (OggPacket_replace p) as [err|q]; [by apply tame_throw|].
  destruct (_streams d !! fr_serialno fr) as [this|] eqn:Hl; [|by apply tame_refl].
  set (d1 := if truthy (b_o_s q) then _ else d).
  assert (tame d d1) as T1.
  { subst d1. destruct (truthy _); [by apply tame_emit | by apply tame_refl]. }
  assert (_streams d1 !! fr_serialno fr = Some this) as Hl1.
  { subst d1. by destruct (truthy _). }
  match goal with |- context [emit__packet ?s ?x] =>
    assert (tame d1 x) as T2 by (by eapply tame_update; [apply T1|..]);
    pose proof (tame_emit__packet s x (proj2 T2)) as T3;
    destruct (emit__packet s x) as [cb d2] end.
  cbn in T3.
  assert (tame d d2) as T by (eapply tame_trans; [exact T1|by eapply tame_trans]).
  destruct cb.
  - eapply tame_trans; [exact T|]. apply tame_afterPacketRead, T.
  - eapply tame_trans; [exact T|]. apply tame_goto, T.
Qed.

Lemma tame__stream s r d : keyed d → tame d (snd (_stream s r d)).
Proof.
  intros K. destruct (_streams d !! s) as [stream|] eqn:Hl.
  - unfold _stream. rewrite Hl. by apply tame_refl.
  - destruct (decide (r = 0)) as [->|Hr].
    + apply tame_of_evolve; [done | by constructor].
    + unfold _stream, new_DecoderStream. rewrite Hl.
      apply Z.eqb_neq in Hr. rewrite Hr. by apply tame_refl.
Qed.

Lemma tame_run script d : keyed d → tame d (fst (run script d)).
Proof.
  revert d. induction script as [|answer script IH]; intros d K;
    [by apply tame_refl|].
  cbn [run].
  destruct (ctl d) as [ | | |s0 n0|this0 n0|fr|fr| ] eqn:Hc,
           answer as [r|rtn|rtn sn pk|r|rtn ? ? ? ? ?|rtn|rtn ? ? ? ?|rtn ? ? ? ?];
    try by apply tame_refl.
  - (* afterWrite *)
    destruct (_ =? 0).
    + eapply tame_trans; [by apply tame_goto | apply IH, tame_goto, K].
    + by apply tame_callback.
  - (* afterPageout *)
    destruct (rtn =? 1); [| destruct (rtn =? 0); by apply tame_callback].
    match goal with |- context [emit ?e d] =>
      pose proof (tame_emit d e K eq_refl) as T1 end.
    destruct (_streams _ !! _) eqn:Hl.
    + pose proof (tame__stream sn 0 _ (proj2 T1)) as T2.
      destruct (_stream sn 0 _) as [[err|stream] d2]; cbn [snd fst] in T2 |- *.
      * eapply tame_trans; [exact T1|]. eapply tame_trans; [exact T2|].
        apply tame_throw, T2.
      * eapply tame_trans; [exact T1|]. eapply tame_trans; [exact T2|].
        eapply tame_trans; [apply tame_goto, T2 | apply IH, tame_goto, T2].
    + eapply tame_trans; [exact T1|].
      eapply tame_trans; [apply tame_goto, T1 | apply IH, tame_goto, T1].
  - (* new DecoderStream *)
    pose proof (tame__stream s0 r d K) as T.
    destruct (_stream s0 r d) as [[err|stream] d1]; cbn [snd fst] in T |- *.
    + eapply tame_trans; [exact T | apply tame_throw, T].
    + eapply tame_trans; [exact T|].
      eapply tame_trans; [apply tame_goto, T | apply IH, tame_goto, T].
  - (* afterPagein *)
    destruct (r =? 0); [|by apply tame_callback].
    match goal with |- context [emit ?e d] =>
      pose proof (tame_emit d e K eq_refl) as T1 end.
    eapply tame_trans; [exact T1|].
    eapply tame_trans; [apply tame_packetout, T1 | apply IH, tame_packetout, T1].
  - (* afterPacketout *)
    destruct (rtn =? 1).
    + eapply tame_trans; [by apply tame_got_packet | by apply IH, tame_got_packet].
    + destruct (rtn =? -1); [|by apply tame_callback].
      eapply tame_trans; [by apply tame_packetout | by apply IH, tame_packetout].
Qed.

Lemma tame__read s d : keyed d → tame d (_read s d).
Proof.
  intros K. unfold _read.
  destruct (_streams d !! s) as [this|] eqn:Hl; [|by apply tame_refl].
  destruct (packets this) as [|p rest] eqn:Hp.
  - by eapply tame_update.
  - pose proof (tame_onpacket s this d K Hl) as T.
    destruct (onpacket this d) as [cb d1]. cbn in T.
    destruct cb; [|done]. destruct (ctl d1); try done.
    eapply tame_trans; [exact T | apply tame_afterPacketRead, T].
Qed.

Lemma tame_step i w : keyed (fst w) → tame (fst w) (fst (step i w)).
Proof.
  destruct w as [d script]. cbn [fst]. intros K. destruct i as [|s]; cbn [step].
  - destruct (ctl d); try by apply tame_refl.
    eapply tame_trans; [by apply tame_goto | by apply tame_run, tame_goto].
  - eapply tame_trans; [by apply tame__read | by apply tame_run, tame__read].
Qed.

Lemma tame_exec ins w : keyed (fst w) → tame (fst w) (fst (exec ins w)).
Proof.
  revert w. induction ins as [|i ins IH]; intros w K; [by apply tame_refl|].
  cbn. eapply tame_trans; [by apply tame_step | apply IH, tame_step, K].
Qed.

Lemma keyed_new : keyed new_Decoder.
Proof. intros s stream. cbn. by rewrite lookup_empty. Qed.

Lemma announced_once_new : announced_once new_Decoder.
Proof. intros s. cbn. by rewrite lookup_empty. Qed.

Lemma fresh_ids_new : fresh_ids new_Decoder.
Proof. intros s stream. cbn. by rewrite lookup_empty. Qed.

End DecoderFacts.


(** ** The decode side *)
Section DecodeSide.
Import Decoder DecoderFacts.

Ltac dsimpl :=
  cbn [emit goto set_stream callback throw _streams next_id ctl log snd fst
       serialno id packets _packet_listeners fr_serialno fr_packets fr_packet
       Z.eqb Pos.eqb].

Lemma reachable_tame ins script0 :
  tame new_Decoder (exec ins (new_Decoder, script0)).1.
Proof. apply (tame_exec ins (new_Decoder, script0)), keyed_new. Qed.

Lemma reachable_announced_once ins script0 :
  announced_once (exec ins (new_Decoder, script0)).1.
Proof.
  eapply evolve_announced_once; [apply reachable_tame | apply announced_once_new].
Qed.

Lemma reachable_fresh_ids ins script0 :
  fresh_ids (exec ins (new_Decoder, script0)).1.
Proof.
  eapply evolve_fresh_ids; [apply reachable_tame | apply fresh_ids_new].
Qed.

(** The page of an already known serial number: no creation, no
    notification, and the page goes to the stream [_stream] returns, the
    one of the table. *)
Lemma route_known d s n stream :
  ctl d = at_sync_pageout → _streams d !! s = Some stream →
  serialno stream = s →
  ∃ d', run [Binding.ogg_sync_pageout 1 s n; Binding.ogg_stream_pagein 0] d = (d', [])
        ∧ _streams d' = _streams d
        ∧ next_id d' = next_id d
        ∧ log d' = log d ++ [decoder_emit_page s n; stream_emit_page (id stream)]
        ∧ ctl d' = if n =? 0 then at_sync_pageout
                   else at_packetout {| fr_serialno := s; fr_packets := n;
                                        fr_packet := None |}.
Proof.
  intros Hc Hl Hs. cbn [run]. rewrite Hc. cbn [Z.eqb Pos.eqb emit _streams].
  unfold _stream. cbn [emit _streams snd goto ctl]. rewrite Hl.
  cbn [snd goto ctl Z.eqb _streams emit]. rewrite Hs.
  eexists. split; [reflexivity|]. unfold packetout. cbn [fr_packets].
  destruct (n =? 0); cbn; rewrite <- app_assoc; done.
Qed.

(** The page of an unseen serial number: the stream is created, stored and
    announced, and the page goes to it. *)
Lemma route_unseen d s n :
  ctl d = at_sync_pageout → _streams d !! s = None →
  let stream := {| id := next_id d; serialno := s; packets := [];
                   _packet_listeners := 0%nat |} in
  ∃ d', run [Binding.ogg_sync_pageout 1 s n; Binding.ogg_stream_init 0;
             Binding.ogg_stream_pagein 0] d = (d', [])
        ∧ _streams d' = <[s := stream]> (_streams d)
        ∧ next_id d' = S (next_id d)
        ∧ log d' = log d ++ [decoder_emit_page s n;
                             decoder_emit_stream (next_id d) s;
                             stream_emit_page (next_id d)]
        ∧ ctl d' = if n =? 0 then at_sync_pageout
                   else at_packetout {| fr_serialno := s; fr_packets := n;
                                        fr_packet := None |}.
Proof.
  intros Hc Hl stream. cbn [run]. rewrite Hc. dsimpl.
  rewrite Hl. dsimpl. unfold _stream, new_DecoderStream. dsimpl.
  rewrite Hl. dsimpl.
  eexists. split; [reflexivity|]. unfold packetout. cbn [fr_packets].
  destruct (n =? 0); cbn; rewrite <- !app_assoc; done.
Qed.

(** C1.  Whenever the decoder, in any state it can reach, is handed a page
    with serial number [s].  If [s] is in the table: exactly one 'stream'
    event for [s] has been emitted so far; [_stream(s)] returns the stream
    of the table, which has serial number [s], and changes nothing; the
    page is submitted to that very stream, which emits 'page' and is then
    asked for the packets of the page; the table is left as it is, no
    stream object is made and no 'stream' event is emitted.  If [s] is not
    in the table: no 'stream' event for [s] has been emitted so far;
    [_stream(s)] makes a stream object that is none of the objects of the
    table, stores it under [s], emits one 'stream' event for it and returns
    it; the page is submitted to that very stream.  Either way exactly one
    'stream' event for [s] has been emitted afterwards.
    ([ogg_stream_init] and [ogg_stream_pagein] answering 0.) *)
Theorem C1_route_page (ins : list input) (script0 : list Binding.response)
    (s n : Z) :
  let d := (exec ins (new_Decoder, script0)).1 in
  ctl d = at_sync_pageout →
  match _streams d !! s with
  | Some stream =>
      announcements s (log d) = 1%nat
      ∧ serialno stream = s
      ∧ _stream s 0 d = (inr stream, d)
      ∧ ∃ d', run [Binding.ogg_sync_pageout 1 s n; Binding.ogg_stream_pagein 0] d
              = (d', [])
          ∧ _streams d' = _streams d
          ∧ next_id d' = next_id d
          ∧ log d' = log d ++ [decoder_emit_page s n;
                               stream_emit_page (id stream)]
          ∧ announcements s (log d') = 1%nat
          ∧ ctl d' = (if n =? 0 then at_sync_pageout
                      else at_packetout {| fr_serialno := s; fr_packets := n;
                                           fr_packet := None |})
  | None =>
      let stream := {| id := next_id d; serialno := s; packets := [];
                       _packet_listeners := 0%nat |} in
      announcements s (log d) = 0%nat
      ∧ (∀ s' other, _streams d !! s' = Some other → id other ≠ id stream)
      ∧ (∃ d1, _stream s 0 d = (inr stream, d1)
           ∧ _streams d1 = <[s := stream]> (_streams d)
           ∧ next_id d1 = S (next_id d)
           ∧ log d1 = log d ++ [decoder_emit_stream (id stream) s])
      ∧ ∃ d', run [Binding.ogg_sync_pageout 1 s n; Binding.ogg_stream_init 0;
                   Binding.ogg_stream_pagein 0] d = (d', [])
          ∧ _streams d' = <[s := stream]> (_streams d)
          ∧ next_id d' = S (next_id d)
          ∧ log d' = log d ++ [decoder_emit_page s n;
                               decoder_emit_stream (id stream) s;
                               stream_emit_page (id stream)]
          ∧ announcements s (log d') = 1%nat
          ∧ ctl d' = (if n =? 0 then at_sync_pageout
                      else at_packetout {| fr_serialno := s; fr_packets := n;
                                           fr_packet := None |})
  end.
Proof.
  intros d Hc. pose proof (reachable_announced_once ins script0 s) as A.
  pose proof (reachable_tame ins script0) as [_ K].
  pose proof (reachable_fresh_ids ins script0) as F.
  fold d in A, K, F. destruct (_streams d !! s) as [stream|] eqn:Hl.
  - pose proof (K _ _ Hl) as Hs.
    split; [done|]. split; [done|]. split; [by unfold _stream; rewrite Hl|].
    destruct (route_known d s n stream Hc Hl Hs) as (d' & ? & ? & ? & Hlog & ?).
    exists d'. repeat (split; [done|]). split; [|done].
    rewrite Hlog, announcements_app, A. cbn. lia.
  - cbv zeta. cbn [id]. split; [done|]. split.
    { intros s' other Ho. specialize (F _ _ Ho). lia. }
    split.
    { unfold _stream, new_DecoderStream. rewrite Hl. cbn.
      eexists. split; [reflexivity|]. done. }
    destruct (route_unseen d s n Hc Hl) as (d' & ? & ? & ? & Hlog & ?).
    exists d'. repeat (split; [done|]). split; [|done].
    rewrite Hlog, announcements_app, A. cbn.
    rewrite bool_decide_eq_true_2 by done. lia.
Qed.

(** A first page, without packets, of serial number 7 has been routed; the
    decoder is handed a second page with that serial number. *)
Lemma C1_route_page_witness :
  let d := (exec [write]
              (new_Decoder,
               [Binding.ogg_sync_write 0; Binding.ogg_sync_pageout 1 7 0;
                Binding.ogg_stream_init 0; Binding.ogg_stream_pagein 0])).1 in
  let stream := {| id := 0; serialno := 7; packets := [];
                   _packet_listeners := 0 |} in
  ctl d = at_sync_pageout ∧
  announcements 7 (log d) = 1%nat
  ∧ serialno stream = 7
  ∧ _stream 7 0 d = (inr stream, d)
  ∧ ∃ d', run [Binding.ogg_sync_pageout 1 7 3; Binding.ogg_stream_pagein 0] d
          = (d', [])
      ∧ _streams d' = _streams d
      ∧ next_id d' = next_id d
      ∧ log d' = log d ++ [decoder_emit_page 7 3; stream_emit_page (id stream)]
      ∧ announcements 7 (log d') = 1%nat
      ∧ ctl d' = at_packetout {| fr_serialno := 7; fr_packets := 3;
                                 fr_packet := None |}.
Proof.
  split; [reflexivity|].
  exact (C1_route_page [write]
           [Binding.ogg_sync_write 0; Binding.ogg_sync_pageout 1 7 0;
            Binding.ogg_stream_init 0; Binding.ogg_stream_pagein 0]
           7 3 eq_refl).
Defined.




(** C5, as the code has it.  When [ogg_stream_packetout] answers -1 (the
    sync warning libogg gives for a hole in the page sequence), the stream
    calls [packetout()] again and nothing else: no event is emitted, no
    error reaches the write callback, and the run goes on exactly as if the
    answer had not been given. *)
Theorem C5_gap_is_retried (d : Decoder) (fr : frame)
    (rest : list Binding.response) (bytes b_o_s e_o_s granulepos packetno : Z) :
  ctl d = at_packetout fr → fr_packets fr ≠ 0 →
  run (Binding.ogg_stream_packetout (-1) bytes b_o_s e_o_s granulepos packetno
       :: rest) d
  = run rest d.
Proof.
  intros Hc Hn. cbn [run]. rewrite Hc. dsimpl. unfold packetout.
  apply Z.eqb_neq in Hn. rewrite Hn, <- Hc. by rewrite goto_ctl.
Qed.

Lemma C5_gap_is_retried_witness :
  run [Binding.ogg_stream_packetout (-1) 0 0 0 0 0;
       Binding.ogg_stream_packetout 1 10 0 0 0 0] gap_state
  = run [Binding.ogg_stream_packetout 1 10 0 0 0 0] gap_state.
Proof.
  apply (C5_gap_is_retried gap_state
           {| fr_serialno := 7; fr_packets := 1; fr_packet := None |}).
  - reflexivity.
  - discriminate.
Defined.

(** C5 fails as stated: the stream is waiting for a packet, libogg answers
    with the sync warning, and the log of events is what it was before. *)
Lemma C5_counterexample :
  let d' := (run [Binding.ogg_stream_packetout (-1) 0 0 0 0 0] gap_state).1 in
  ctl gap_state = at_packetout {| fr_serialno := 7; fr_packets := 1;
                                  fr_packet := None |}
  ∧ log d' = log gap_state
  ∧ log d' = [decoder_emit_page 7 1; decoder_emit_stream 0 7; stream_emit_page 0].
Proof. vm_compute. done. Qed.




End DecodeSide.

(** ** The encode side *)
Module EncoderFacts.
Import Encoder.

(** *** [(Math.random() * 1000000) | 0] *)

Lemma round53_bounds n :
  0 <= n < 2 ^ 73 → 0 <= round53 n <= n + 2 ^ 19.
Proof.
  intros [H0 H1]. unfold round53.
  destruct (Z.log2 n <=? 52) eqn:Hlog; [lia|].
  apply Z.leb_gt in Hlog.
  assert (0 < n) as Hpos.
  { destruct (Z.eq_dec n 0) as [->|]; [cbn in Hlog; lia | lia]. }
  assert (Z.log2 n < 73) as Hlt by (apply Z.log2_lt_pow2; lia).
  set (s := Z.log2 n - 52) in *. cbv zeta.
  assert (1 <= s <= 20) as Hs by lia.
  set (h := 2 ^ (s - 1)).
  assert (2 ^ s = 2 * h) as E.
  { subst h. replace s with (Z.succ (s - 1)) at 1 by lia.
    rewrite Z.pow_succ_r by lia. done. }
  assert (0 < h <= 2 ^ 19) as Hh.
  { subst h. split; [apply Z.pow_pos_nonneg; lia|].
    apply Z.pow_le_mono_r; lia. }
  rewrite E.
  pose proof (Z.div_mod n (2 * h) ltac:(lia)) as Hdm.
  pose proof (Z.mod_pos_bound n (2 * h) ltac:(lia)) as Hr.
  assert (0 <= n / (2 * h)) as Hq by (apply Z.div_pos; lia).
  set (q := n / (2 * h)) in *. set (r := n mod (2 * h)) in *.
  destruct ((h <? r) || ((r =? h) && Z.odd q)) eqn:Hup.
  - assert (h <= r) as Hge.
    { apply orb_true_iff in Hup as [Hup|Hup]; [apply Z.ltb_lt in Hup; lia|].
      apply andb_true_iff in Hup as [Hup _]. apply Z.eqb_eq in Hup. lia. }
    nia.
  - nia.
Qed.

(** The generated serial number is one of 0 .. 999999. *)
Lemma random_serial_range rnd :
  is_random rnd → 0 <= to_int32 (times_1000000 rnd) < 1000000.
Proof.
  intros (Hm & He & Hlt). unfold to_int32, times_1000000. cbn [mant expo].
  set (p := 2 ^ expo rnd) in *.
  assert (0 < p) as Hp by (apply Z.pow_pos_nonneg; lia).
  assert (0 <= mant rnd * 1000000 < 2 ^ 73) as Hn by lia.
  pose proof (round53_bounds _ Hn) as HR.
  set (R := round53 (mant rnd * 1000000)) in *.
  assert (R < p * 1000000) as HRp by lia.
  rewrite Z.quot_div_nonneg by lia.
  assert (0 <= R / p) by (apply Z.div_pos; lia).
  assert (R / p < 1000000) by (apply Z.div_lt_upper_bound; lia).
  rewrite Z.mod_small by lia.
  destruct (2 ^ 31 <=? R / p) eqn:Hc; [apply Z.leb_le in Hc; lia | lia].
Qed.

(** *** [_onpage] and the 'page' events *)

Lemma iter_output_fields n e :
  _streams (Nat.iter n output e) = _streams e
  ∧ objects (Nat.iter n output e) = objects e
  ∧ next_id (Nat.iter n output e) = next_id e
  ∧ _page_listeners (Nat.iter n output e) = _page_listeners e.
Proof. induction n as [|n IH]; [done|]. cbn. exact IH. Qed.

Lemma _onpage_streams s og hlen blen e_o_s e :
  _streams (_onpage s og hlen blen e_o_s e)
  = if truthy e_o_s then delete (serialno s) (_streams e) else _streams e.
Proof.
  unfold _onpage, emit__page.
  match goal with |- context [Nat.iter ?n output ?x] =>
    destruct (iter_output_fields n x) as (-> & _) end.
  done.
Qed.

Lemma _onpage_objects s og hlen blen e_o_s e :
  objects (_onpage s og hlen blen e_o_s e) = objects e.
Proof.
  unfold _onpage, emit__page.
  match goal with |- context [Nat.iter ?n output ?x] =>
    destruct (iter_output_fields n x) as (_ & -> & _) end.
  done.
Qed.

Lemma _onpage_next_id s og hlen blen e_o_s e :
  next_id (_onpage s og hlen blen e_o_s e) = next_id e.
Proof.
  unfold _onpage, emit__page.
  match goal with |- context [Nat.iter ?n output ?x] =>
    destruct (iter_output_fields n x) as (_ & _ & -> & _) end.
  done.
Qed.

Lemma emit_page_once this s og hlen blen e_o_s e :
  objects e !! this = Some s → page_listeners s = 1%nat →
  emit_page this og hlen blen e_o_s e = _onpage s og hlen blen e_o_s e.
Proof. intros Ho Hl. unfold emit_page. rewrite Ho, Hl. done. Qed.

(** [_flush], called on a stream whose next answers are the pages of
    [pages] followed by 0: every page is emitted, the callback is called
    without error, and the stream leaves the table when one of the pages
    carries the end-of-stream flag. *)
Lemma _flush_drains pages :
  ∀ e this s og hlen blen e_o_s rest,
  objects e !! this = Some s → page_listeners s = 1%nat →
  Forall flushed_page pages →
  ∃ e', _flush (pages ++ Binding.ogg_stream_flush 0 og hlen blen e_o_s :: rest)
          this e = (Some None, e', rest)
    ∧ _streams e' = (if existsb carries_eos pages
                     then delete (serialno s) (_streams e) else _streams e)
    ∧ (_page_listeners e = 0%nat →
       _queue e' = _queue e ++ List.map page_buffer pages
       ∧ pushed e' = pushed e).
Proof.
  induction pages as [|a pages IH]; intros e this s og hlen blen e_o_s rest Ho Hl Hp.
  - cbn. exists e. rewrite app_nil_r. done.
  - apply Forall_cons in Hp as [Ha Hp].
    destruct a as [| | | | | | |rtn og' hlen' blen' eos']; try done.
    cbn in Ha. apply Z.eqb_neq in Ha. cbn [app _flush]. rewrite Ha.
    rewrite (emit_page_once this s) by done.
    destruct (IH (_onpage s og' hlen' blen' eos' e) this s og hlen blen e_o_s rest)
      as (e' & Hrun & Htab & Hq); [by rewrite _onpage_objects | done | done |].
    exists e'. split; [done|]. split.
    + rewrite Htab, _onpage_streams. cbn [existsb carries_eos].
      destruct (truthy eos'); cbn [orb]; [|done].
      destruct (existsb carries_eos pages); [by rewrite delete_delete_eq | done].
    + intros H0. unfold _onpage, emit__page in Hq. cbn in Hq. rewrite H0 in Hq.
      cbn in Hq. destruct (Hq eq_refl) as [-> ->]. cbn [List.map page_buffer].
      by rewrite <- app_assoc.
Qed.

(** *** Invariants of the encoder *)

Lemma inv_new : inv new_Encoder.
Proof. split; intros ? ?; cbn; by rewrite lookup_empty. Qed.

Lemma inv_shrink e e' :
  objects e' = objects e →
  (∀ n this, _streams e' !! n = Some this → _streams e !! n = Some this) →
  inv e → inv e'.
Proof.
  intros Ho Hs [A L]. split.
  - intros this s. rewrite Ho. apply A.
  - intros n this Hl. rewrite Ho. eapply L, Hs, Hl.
Qed.

Lemma inv__onpage s og hlen blen e_o_s e :
  inv e → inv (_onpage s og hlen blen e_o_s e).
Proof.
  apply (inv_shrink e (_onpage s og hlen blen e_o_s e));
    [apply _onpage_objects|].
  intros n this. rewrite _onpage_streams.
  destruct (truthy e_o_s); [|done].
  rewrite lookup_delete_Some. tauto.
Qed.

Lemma inv_emit_page this og hlen blen e_o_s e :
  inv e → inv (emit_page this og hlen blen e_o_s e).
Proof.
  intros I. unfold emit_page. destruct (objects e !! this) as [s|]; [|done].
  induction (page_listeners s) as [|n IH]; [done|].
  cbn. by apply inv__onpage.
Qed.

Lemma inv__read e : inv e → inv (_read e).
Proof.
  apply inv_shrink; unfold _read;
    destruct (_needsEnd e); try done; by destruct (_queue e).
Qed.

Lemma inv_stream arg rnd r e : inv e → inv (stream arg rnd r e).2.
Proof.
  intros [A L]. unfold stream.
  destruct (lookup_stream arg e); [done|].
  destruct (new_EncoderStream arg rnd r) as [err|s] eqn:Hn; [done|].
  assert (page_listeners s = 0%nat) as Hz.
  { unfold new_EncoderStream in Hn. destruct (r =? 0); by inversion Hn. }
  split.
  - intros this s'. cbn. rewrite lookup_insert_Some.
    intros [[_ <-]|[_ Hl]]; [cbn; lia | by eapply A].
  - intros n this. cbn. rewrite lookup_insert_Some.
    intros [[_ <-]|[_ Hl]]; [by rewrite lookup_insert_eq|].
    destruct (L _ _ Hl) as [x Hx].
    destruct (decide (next_id e = this)) as [<-|Hne].
    + rewrite lookup_insert_eq. eauto.
    + rewrite lookup_insert_ne by done. eauto.
Qed.

Lemma inv_step i e : inv e → inv (step i e).
Proof.
  destruct i; cbn [step];
    [apply inv_stream | apply inv_emit_page | apply inv__read].
Qed.

Lemma inv_exec ins e : inv e → inv (exec ins e).
Proof.
  revert e. induction ins as [|i ins IH]; intros e I; [done|].
  cbn. apply IH, inv_step, I.
Qed.

Lemma exec_snoc ins i e : exec (ins ++ [i]) e = step i (exec ins e).
Proof. unfold exec. by rewrite fold_left_app. Qed.

Lemma exec_app ins ins' e : exec (ins ++ ins') e = exec ins' (exec ins e).
Proof. unfold exec. by rewrite fold_left_app. Qed.

(** *** The end-of-output latch *)

Lemma iter_output_latch n e :
  (n = 0%nat ∧ Nat.iter n output e = e)
  ∨ (_needsEnd (Nat.iter n output e) = bool_decide (size (_streams e) = 0%nat)
     ∧ _queue (Nat.iter n output e) = []).
Proof.
  destruct n as [|n]; [by left | right].
  change (Nat.iter (S n) output e) with (output (Nat.iter n output e)).
  generalize (iter_output_fields n e). generalize (Nat.iter n output e).
  intros x (Hx & _). cbn. by rewrite Hx.
Qed.

Lemma iter_output_pushed n e :
  ∃ l, pushed (Nat.iter n output e) = pushed e ++ l ∧ None ∉ l.
Proof.
  induction n as [|n (l & IH & Hl)].
  - exists []. rewrite app_nil_r. split; [done | set_solver].
  - exists (l ++ [Some (concat (_queue (Nat.iter n output e)))]).
    change (Nat.iter (S n) output e) with (output (Nat.iter n output e)).
    revert IH. generalize (Nat.iter n output e). intros x IH.
    cbn. rewrite IH, app_assoc. split; [done|].
    rewrite elem_of_app, list_elem_of_singleton. intros [?|?]; done.
Qed.

Lemma _onpage_latch s og hlen blen e_o_s e :
  _needsEnd e = false → _needsEnd (_onpage s og hlen blen e_o_s e) = true →
  _streams (_onpage s og hlen blen e_o_s e) = ∅
  ∧ _queue (_onpage s og hlen blen e_o_s e) = [].
Proof.
  intros H0 H1. unfold _onpage, emit__page in *.
  match goal with |- context [Nat.iter ?n output ?x] =>
    destruct (iter_output_latch n x) as [[_ E]|[E1 E2]];
    [rewrite E in H1; cbn in H1; congruence|];
    destruct (iter_output_fields n x) as (E3 & _);
    rewrite E1 in H1; rewrite E2, E3 end.
  apply bool_decide_eq_true in H1. apply map_size_empty_iff in H1. done.
Qed.

Lemma step_latch i e :
  attached_once e → _needsEnd e = false → _needsEnd (step i e) = true →
  _streams (step i e) = ∅ ∧ _queue (step i e) = [].
Proof.
  intros A H0. destruct i as [arg rnd r|this og hlen blen e_o_s|]; cbn [step].
  - unfold stream. destruct (lookup_stream arg e); [cbn; congruence|].
    destruct (new_EncoderStream arg rnd r); cbn; congruence.
  - unfold emit_page. destruct (objects e !! this) as [s|] eqn:Ho; [|congruence].
    rewrite (A _ _ Ho). cbn. by apply _onpage_latch.
  - unfold _read. rewrite H0. destruct (_queue e); cbn; [congruence|].
    intros H1. apply bool_decide_eq_true in H1. by apply map_size_empty_iff in H1.
Qed.

Lemma step_pushed i e :
  attached_once e →
  ∃ l, pushed (step i e) = pushed e ++ l
       ∧ (None ∈ l → i = read ∧ _needsEnd e = true).
Proof.
  intros A. destruct i as [arg rnd r|this og hlen blen e_o_s|]; cbn [step].
  - exists []. rewrite app_nil_r. split; [|set_solver]. unfold stream.
    destruct (lookup_stream arg e); [done|].
    by destruct (new_EncoderStream arg rnd r).
  - destruct (objects e !! this) as [s|] eqn:Ho;
      [|unfold emit_page; rewrite Ho].
    + rewrite (emit_page_once this s) by eauto. unfold _onpage, emit__page.
      match goal with |- context [Nat.iter ?n output ?x] =>
        destruct (iter_output_pushed n x) as (l & -> & Hl) end.
      exists l. split; [done | tauto].
    + exists []. rewrite app_nil_r. split; [done | set_solver].
  - unfold _read. destruct (_needsEnd e) eqn:H0.
    + exists [None]. done.
    + destruct (_queue e) as [|b q].
      * exists []. rewrite app_nil_r. split; [done | set_solver].
      * exists [Some (concat (_queue e))]. split; [done|].
        rewrite list_elem_of_singleton. done.
Qed.

(** When the latch is set, it was set by a step after which the table
    was empty and the queue drained. *)
Lemma latch_history ins :
  _needsEnd (exec ins new_Encoder) = true →
  ∃ ins1 j ins2, ins = ins1 ++ j :: ins2
    ∧ _needsEnd (exec ins1 new_Encoder) = false
    ∧ _needsEnd (exec (ins1 ++ [j]) new_Encoder) = true
    ∧ _streams (exec (ins1 ++ [j]) new_Encoder) = ∅
    ∧ _queue (exec (ins1 ++ [j]) new_Encoder) = [].
Proof.
  induction ins as [|i ins IH] using rev_ind; [cbn; congruence|].
  intros H1. destruct (_needsEnd (exec ins new_Encoder)) eqn:H0.
  - destruct (IH eq_refl) as (ins1 & j & ins2 & -> & ? & ? & ? & ?).
    exists ins1, j, (ins2 ++ [i]). rewrite <- app_assoc. done.
  - exists ins, i, []. split; [done|]. split; [done|]. split; [done|].
    rewrite exec_snoc in *.
    apply step_latch; [apply (inv_exec ins new_Encoder inv_new) | done..].
Qed.


(** *** Object identities and the table *)

Lemma iter__onpage_objects k s og hlen blen e_o_s e :
  objects (Nat.iter k (_onpage s og hlen blen e_o_s) e) = objects e
  ∧ next_id (Nat.iter k (_onpage s og hlen blen e_o_s) e) = next_id e.
Proof.
  induction k as [|k [IH1 IH2]]; [done|].
  change (Nat.iter (S k) ?f e) with (f (Nat.iter k f e)).
  by rewrite _onpage_objects, _onpage_next_id.
Qed.

Lemma iter__onpage_streams k s og hlen blen e_o_s e n this :
  _streams (Nat.iter k (_onpage s og hlen blen e_o_s) e) !! n = Some this →
  _streams e !! n = Some this.
Proof.
  induction k as [|k IH]; [done|].
  change (Nat.iter (S k) ?f e) with (f (Nat.iter k f e)).
  rewrite _onpage_streams. destruct (truthy e_o_s); [|done].
  rewrite lookup_delete_Some. intros [_ H]. by apply IH.
Qed.

Lemma well_formed_new : well_formed new_Encoder.
Proof. split; intros ? ?; cbn; by rewrite lookup_empty. Qed.

Lemma well_formed_step i e : well_formed e → well_formed (step i e).
Proof.
  intros [F K]. destruct i as [arg rnd r|this og hlen blen e_o_s|]; cbn [step].
  - unfold stream. destruct (lookup_stream arg e); [done|].
    destruct (new_EncoderStream arg rnd r) as [err|s]; [done|]. split.
    + intros this s'. cbn. rewrite lookup_insert_Some.
      intros [[<- _]|[_ Hl]]; [lia | specialize (F _ _ Hl); lia].
    + intros n this. cbn. rewrite lookup_insert_Some.
      intros [[<- <-]|[_ Hl]].
      * rewrite lookup_insert_eq. eauto.
      * destruct (K _ _ Hl) as (s' & Hs' & <-). exists s'. split; [|done].
        rewrite lookup_insert_ne; [done|]. specialize (F _ _ Hs'). lia.
  - unfold emit_page. destruct (objects e !! this) as [s|]; [|done].
    destruct (iter__onpage_objects (page_listeners s) s og hlen blen e_o_s e)
      as [Ho Hn].
    split.
    + intros x y. rewrite Ho, Hn. apply F.
    + intros n x Hl. rewrite Ho. eapply K, iter__onpage_streams, Hl.
  - unfold _read. destruct (_needsEnd e); [done|]. by destruct (_queue e).
Qed.

Lemma well_formed_exec ins e : well_formed e → well_formed (exec ins e).
Proof.
  revert e. induction ins as [|i ins IH]; intros e W; [done|].
  cbn. apply IH, well_formed_step, W.
Qed.

(** *** Readers that wait *)

Lemma _onpage_listeners s og hlen blen e_o_s e :
  _page_listeners (_onpage s og hlen blen e_o_s e) = 0%nat.
Proof.
  unfold _onpage, emit__page.
  match goal with |- context [Nat.iter ?n output ?x] =>
    destruct (iter_output_fields n x) as (_ & _ & _ & ->) end.
  done.
Qed.

Lemma waiting_sound_step i e : waiting_sound e → waiting_sound (step i e).
Proof.
  intros W. destruct i as [arg rnd r|this og hlen blen e_o_s|]; cbn [step].
  - unfold stream. destruct (lookup_stream arg e); [done|].
    by destruct (new_EncoderStream arg rnd r).
  - unfold emit_page. destruct (objects e !! this) as [s|]; [|done].
    destruct (page_listeners s) as [|k]; [done|].
    change (Nat.iter (S k) ?f e) with (f (Nat.iter k f e)).
    intros H. rewrite _onpage_listeners in H. lia.
  - unfold _read, waiting_sound in *. destruct (_needsEnd e) eqn:H0.
    + cbn. intros H. destruct (W H). congruence.
    + destruct (_queue e) eqn:Hq; cbn; [done|].
      intros H. destruct (W H). congruence.
Qed.

Lemma waiting_sound_exec ins e : waiting_sound e → waiting_sound (exec ins e).
Proof.
  revert e. induction ins as [|i ins IH]; intros e W; [done|].
  cbn. apply IH, waiting_sound_step, W.
Qed.

Lemma waiting_sound_new : waiting_sound new_Encoder.
Proof. intros H. cbn in H. lia. Qed.

(** One step of an encoder that has ended. *)
Lemma ended_step i e :
  waiting_sound e → _needsEnd e = true →
  _needsEnd (step i e) = true
  ∧ pushed (step i e) = pushed e ++ replicate (reads [i]) None.
Proof.
  intros W H1.
  assert (_page_listeners e = 0%nat) as H0.
  { destruct (_page_listeners e) eqn:E; [done|].
    destruct W as [_ W]; [lia | congruence]. }
  destruct i as [arg rnd r|this og hlen blen e_o_s|]; cbn [step reads replicate].
  - rewrite app_nil_r. unfold stream. destruct (lookup_stream arg e); [done|].
    by destruct (new_EncoderStream arg rnd r).
  - rewrite app_nil_r. unfold emit_page.
    destruct (objects e !! this) as [s|]; [|done].
    assert (∀ k, let x := Nat.iter k (_onpage s og hlen blen e_o_s) e in
                 _needsEnd x = true ∧ pushed x = pushed e
                 ∧ _page_listeners x = 0%nat) as Hk.
    { induction k as [|k (I1 & I2 & I3)]; [done|].
      change (Nat.iter (S k) ?f e) with (f (Nat.iter k f e)). cbv zeta.
      revert I1 I2 I3. generalize (Nat.iter k (_onpage s og hlen blen e_o_s) e).
      intros x I1 I2 I3. unfold _onpage, emit__page. cbn. rewrite I3. done. }
    destruct (Hk (page_listeners s)) as (? & ? & _). done.
  - unfold _read. rewrite H1. done.
Qed.

End EncoderFacts.

Section EncodeSide.
Import Encoder EncoderFacts.

(** C4, as the code has it.  When [stream] is called without a serial
    number, the serial number of the new stream is the integer part of
    [Math.random() * 1000000], one of 0 .. 999999, and the new stream is
    stored under it whatever the table holds ([ogg_stream_init] answering
    0). *)
Theorem C4_generated_serial (e : Encoder) (rnd : double) :
  is_random rnd →
  let n := to_int32 (times_1000000 rnd) in
  0 <= n < 1000000
  ∧ ∃ e', stream None rnd 0 e = (inr (next_id e), e')
      ∧ _streams e' = <[n := next_id e]> (_streams e)
      ∧ objects e' !! next_id e = Some {| serialno := n; page_listeners := 1 |}.
Proof.
  intros Hr n. split; [by apply random_serial_range|].
  eexists. split; [reflexivity|]. cbn. split; [done|].
  by rewrite lookup_insert_eq.
Qed.

Lemma colliding_draw_random : is_random colliding_draw.
Proof. unfold is_random, colliding_draw. cbn. lia. Defined.

Lemma C4_generated_serial_witness :
  0 <= to_int32 (times_1000000 colliding_draw) < 1000000
  ∧ ∃ e', stream None colliding_draw 0 encoder_with_7
          = (inr (next_id encoder_with_7), e')
      ∧ _streams e'
        = <[to_int32 (times_1000000 colliding_draw) := next_id encoder_with_7]>
            (_streams encoder_with_7)
      ∧ objects e' !! next_id encoder_with_7
        = Some {| serialno := to_int32 (times_1000000 colliding_draw);
                  page_listeners := 1 |}.
Proof.
  exact (C4_generated_serial encoder_with_7 colliding_draw colliding_draw_random).
Defined.

(** C4 fails as stated: serial number 7 is in use by stream object 0; a
    stream opened without a serial number draws 7 and is stored under it,
    in the place of stream object 0. *)
Lemma C4_counterexample :
  is_random colliding_draw
  ∧ _streams encoder_with_7 !! 7 = Some 0%nat
  ∧ to_int32 (times_1000000 colliding_draw) = 7
  ∧ ∃ e', stream None colliding_draw 0 encoder_with_7 = (inr 1%nat, e')
      ∧ _streams e' !! 7 = Some 1%nat.
Proof.
  split; [exact colliding_draw_random|].
  split; [by vm_compute|]. split; [by vm_compute|].
  eexists. split; [reflexivity | by vm_compute].
Qed.

(** C7, on the code.  [flush(callback)] hands the command to [write],
    whose body is empty: no native call is made, no page is emitted and the
    callback is not called, whatever the stream holds; whereas [_flush],
    which the request was meant to reach, emits every page the stream
    hands over and calls the callback without error. *)
Theorem C7_flush_request_dropped (e : Encoder) (this : nat) (s : EncoderStream)
    (pages : list Binding.response) (og : Binding.ogg_page)
    (hlen blen e_o_s : Z) (rest : list Binding.response) :
  objects e !! this = Some s → page_listeners s = 1%nat →
  Forall flushed_page pages →
  let script := pages ++ Binding.ogg_stream_flush 0 og hlen blen e_o_s :: rest in
  flush script this e = (None, e, script)
  ∧ ∃ e', _flush script this e = (Some None, e', rest)
      ∧ (_page_listeners e = 0%nat →
         _queue e' = _queue e ++ List.map page_buffer pages).
Proof.
  intros Ho Hl Hp script. split; [done|].
  destruct (_flush_drains pages e this s og hlen blen e_o_s rest Ho Hl Hp)
    as (e' & Hrun & _ & Hq).
  exists e'. split; [done|]. intros H0. by destruct (Hq H0).
Qed.

Lemma C7_flush_request_dropped_witness :
  let script := [Binding.ogg_stream_flush 1 a_page 4 1 0;
                 Binding.ogg_stream_flush 0 no_page 0 0 0] in
  flush script 0%nat encoder_with_7 = (None, encoder_with_7, script)
  ∧ ∃ e', _flush script 0%nat encoder_with_7 = (Some None, e', [])
      ∧ (_page_listeners encoder_with_7 = 0%nat →
         _queue e' = _queue encoder_with_7
                     ++ [ [x4f; x67; x67; x53; x41] ]).
Proof.
  apply (C7_flush_request_dropped encoder_with_7 0%nat
           {| serialno := 7; page_listeners := 1 |}
           [Binding.ogg_stream_flush 1 a_page 4 1 0] no_page 0 0 0 []).
  - reflexivity.
  - reflexivity.
  - repeat constructor. discriminate.
Defined.

(** No step other than a page that carries the end-of-stream flag takes a
    serial number out of the table. *)
Lemma only_eos_page_removes i e n this :
  attached_once e → _streams e !! n = Some this →
  _streams (step i e) !! n = None →
  ∃ that og hlen blen e_o_s,
    i = page that og hlen blen e_o_s ∧ truthy e_o_s = true.
Proof.
  intros A Hl. destruct i as [arg rnd r|that og hlen blen e_o_s|]; cbn [step].
  - unfold stream. destruct (lookup_stream arg e); [cbn; congruence|].
    destruct (new_EncoderStream arg rnd r) as [|s]; [cbn; congruence|].
    cbn. rewrite lookup_insert. case_decide; congruence.
  - intros Hn. exists that, og, hlen, blen, e_o_s. split; [done|].
    destruct (objects e !! that) as [s|] eqn:Ho;
      [|unfold emit_page in Hn; rewrite Ho in Hn; congruence].
    rewrite (emit_page_once that s) in Hn by eauto.
    rewrite _onpage_streams in Hn. destruct (truthy e_o_s); [done | congruence].
  - unfold _read. destruct (_needsEnd e); [cbn; congruence|].
    destruct (_queue e); cbn; congruence.
Qed.

(** The steps after which the stream object [this] no longer is the entry
    of the serial number [n]. *)
Lemma entry_lost i e n this :
  inv e → well_formed e → _streams e !! n = Some this →
  _streams (step i e) !! n ≠ Some this
  ↔ (∃ that s og hlen blen e_o_s,
       i = page that og hlen blen e_o_s ∧ objects e !! that = Some s
       ∧ serialno s = n ∧ truthy e_o_s = true)
    ∨ (∃ rnd, i = call_stream None rnd 0 ∧ to_int32 (times_1000000 rnd) = n).
Proof.
  intros [A _] [F K] Hl. split.
  - intros Hne. destruct i as [arg rnd r|that og hlen blen e_o_s|]; cbn [step] in Hne.
    + right. unfold stream in Hne.
      destruct (lookup_stream arg e) eqn:Hls; [done|].
      unfold new_EncoderStream in Hne.
      destruct (r =? 0) eqn:Hr; [|done]. apply Z.eqb_eq in Hr. subst r.
      cbn in Hne. destruct arg as [m|]; cbn in Hls, Hne.
      * destruct (decide (m = n)) as [->|Hmn]; [congruence|].
        by rewrite lookup_insert_ne in Hne.
      * exists rnd. split; [done|].
        destruct (decide (to_int32 (times_1000000 rnd) = n)) as [|Hmn]; [done|].
        by rewrite lookup_insert_ne in Hne.
    + left. destruct (objects e !! that) as [s|] eqn:Ho;
        [|unfold emit_page in Hne; by rewrite Ho in Hne].
      rewrite (emit_page_once that s) in Hne by eauto.
      rewrite _onpage_streams in Hne.
      destruct (truthy e_o_s) eqn:He; [|done].
      destruct (decide (serialno s = n)) as [Hs|Hs].
      * exists that, s, og, hlen, blen, e_o_s. done.
      * by rewrite lookup_delete_ne in Hne.
    + unfold _read in Hne. destruct (_needsEnd e); [done|].
      by destruct (_queue e).
  - intros [(that & s & og & hlen & blen & e_o_s & -> & Ho & Hs & He)
           |(rnd & -> & Hn)]; cbn [step].
    + rewrite (emit_page_once that s) by eauto.
      rewrite _onpage_streams, He, Hs, lookup_delete_eq. done.
    + unfold stream, new_EncoderStream. cbn. rewrite Hn, lookup_insert_eq.
      destruct (K _ _ Hl) as (s & Hs & _). specialize (F _ _ Hs).
      intros E. inversion E. lia.
Qed.

(** C8, as the code has it.  [_onpage], on a page that carries the
    end-of-stream flag, deletes the entry of the serial number of the
    stream that emitted the page, whichever stream object holds that entry.
    So, for a stream object that is the entry of its serial number, in any
    state the encoder can reach: while [_flush] runs on it, it leaves the
    table exactly when one of the pages handed over carries the flag, and
    no other entry changes; and a step of the encoder takes it out of its
    entry exactly when a stream object with that serial number emits a
    page that carries the flag, or when [stream()], called without a
    serial number, generates that serial number and stores a new stream in
    its place. *)
Theorem C8_muxer_retired (ins : list input) (n : Z) (this : nat)
    (pages : list Binding.response) (og : Binding.ogg_page)
    (hlen blen e_o_s : Z) (rest : list Binding.response) :
  let e := exec ins new_Encoder in
  _streams e !! n = Some this →
  Forall flushed_page pages →
  (∃ e', _flush (pages ++ Binding.ogg_stream_flush 0 og hlen blen e_o_s :: rest)
           this e = (Some None, e', rest)
     ∧ _streams e' = (if existsb carries_eos pages
                      then delete n (_streams e) else _streams e)
     ∧ (_streams e' !! n = Some this ↔ existsb carries_eos pages = false))
  ∧ ∀ i, _streams (step i e) !! n ≠ Some this
         ↔ (∃ that s og' hlen' blen' e_o_s',
              i = page that og' hlen' blen' e_o_s' ∧ objects e !! that = Some s
              ∧ serialno s = n ∧ truthy e_o_s' = true)
           ∨ (∃ rnd, i = call_stream None rnd 0
                     ∧ to_int32 (times_1000000 rnd) = n).
Proof.
  intros e Hl Hp.
  pose proof (inv_exec ins new_Encoder inv_new) as I.
  pose proof (well_formed_exec ins new_Encoder well_formed_new) as W.
  fold e in I, W. split.
  - destruct W as [_ K]. destruct (K _ _ Hl) as (s & Ho & Hs).
    destruct (_flush_drains pages e this s og hlen blen e_o_s rest Ho
                (proj1 I _ _ Ho) Hp) as (e' & Hrun & Htab & _).
    exists e'. rewrite Hs in Htab. split; [done|]. split; [done|].
    rewrite Htab. destruct (existsb carries_eos pages).
    + rewrite lookup_delete_eq. split; intros; done.
    + split; intros; done.
  - intros i. by apply entry_lost.
Qed.

Lemma C8_muxer_retired_witness :
  (∃ e', _flush [Binding.ogg_stream_flush 1 a_page 4 1 0;
                 Binding.ogg_stream_flush 1 a_page 4 1 1;
                 Binding.ogg_stream_flush 0 no_page 0 0 0] 0%nat encoder_with_7
         = (Some None, e', [])
     ∧ _streams e' = delete 7 (_streams encoder_with_7)
     ∧ (_streams e' !! 7 = Some 0%nat ↔ true = false))
  ∧ ∀ i, _streams (step i encoder_with_7) !! 7 ≠ Some 0%nat
         ↔ (∃ that s og' hlen' blen' e_o_s',
              i = page that og' hlen' blen' e_o_s'
              ∧ objects encoder_with_7 !! that = Some s
              ∧ serialno s = 7 ∧ truthy e_o_s' = true)
           ∨ (∃ rnd, i = call_stream None rnd 0
                     ∧ to_int32 (times_1000000 rnd) = 7).
Proof.
  apply (C8_muxer_retired [call_stream (Some 7) colliding_draw 0] 7 0%nat
           [Binding.ogg_stream_flush 1 a_page 4 1 0;
            Binding.ogg_stream_flush 1 a_page 4 1 1] no_page 0 0 0 []).
  - reflexivity.
  - repeat constructor; discriminate.
Defined.

(** C8 fails as stated: serial number 7 belongs to stream object 0;
    [stream()] draws 7 and stream object 1 takes the entry, so that object
    0 has left the table without a page; then the page of object 0 that
    carries the end-of-stream flag takes object 1, which has emitted no
    page, out of the table. *)
Lemma C8_counterexample :
  let e1 := step (call_stream None colliding_draw 0) encoder_with_7 in
  let e2 := step (page 0%nat a_page 4 1 1) e1 in
  is_random colliding_draw
  ∧ _streams encoder_with_7 !! 7 = Some 0%nat
  ∧ _streams e1 !! 7 = Some 1%nat
  ∧ _queue e1 = []
  ∧ objects e1 !! 1%nat = Some {| serialno := 7; page_listeners := 1 |}
  ∧ _streams e2 !! 7 = None
  ∧ _queue e2 = [ [x4f; x67; x67; x53; x41] ].
Proof.
  split; [exact colliding_draw_random|]. vm_compute. done.
Qed.

(** C9.  In any state the encoder can reach, when [stream(n)] returns a
    stream, a second [stream(n)] returns the same stream object and leaves
    the encoder as it is, so that [_onpage] is attached to the object
    once. *)
Theorem C9_stream_idempotent (ins : list input) (n : Z) (rnd rnd' : double)
    (r r' : Z) (this : nat) (e1 : Encoder) :
  let e := exec ins new_Encoder in
  stream (Some n) rnd r e = (inr this, e1) →
  stream (Some n) rnd' r' e1 = (inr this, e1)
  ∧ ∃ s, objects e1 !! this = Some s ∧ page_listeners s = 1%nat.
Proof.
  intros e H. destruct (inv_exec ins new_Encoder inv_new) as [A L].
  fold e in A, L. unfold stream in H. cbn [lookup_stream] in H.
  destruct (_streams e !! n) as [that|] eqn:Hl.
  - inversion H; subst. unfold stream. cbn [lookup_stream]. rewrite Hl.
    split; [done|]. destruct (L _ _ Hl) as [s Hs]. exists s. eauto.
  - unfold new_EncoderStream in H. destruct (r =? 0); [|done].
    inversion H; subst. unfold stream. cbn. rewrite !lookup_insert_eq.
    split; [done|]. eauto.
Qed.

Lemma C9_stream_idempotent_witness :
  stream (Some 7) colliding_draw 5 encoder_with_7 = (inr 0%nat, encoder_with_7)
  ∧ ∃ s, objects encoder_with_7 !! 0%nat = Some s ∧ page_listeners s = 1%nat.
Proof.
  exact (C9_stream_idempotent [] 7 colliding_draw colliding_draw 0 5 0%nat
           encoder_with_7 eq_refl).
Defined.

(** C10, as the code has it.  In any state the encoder can reach, a
    [_read] does one of three things: when [_needsEnd] is set it pushes
    [null] and touches nothing else; otherwise, when buffers are queued, it
    pushes their concatenation, first queued first, leaves the queue empty
    and sets [_needsEnd] when the table of streams is empty at that
    moment; otherwise it pushes nothing and waits for the next page.
    [null] is pushed by nothing else.  When [_needsEnd] is set, it was set
    by an earlier step after which the table was empty and the queue
    drained, and it stays set whatever is opened or queued afterwards.
    [_onpage] queues behind what is already there; to a [_read] that waits
    it hands the whole queue, the new page last, and it sets [_needsEnd]
    when the table is then empty.  A serial number leaves the table only
    at a page that carries the end-of-stream flag. *)
Theorem C10_end_after_drain (ins : list input) :
  let e := exec ins new_Encoder in
  (_needsEnd e = true →
     pushed (_read e) = pushed e ++ [None]
     ∧ _queue (_read e) = _queue e ∧ _streams (_read e) = _streams e
     ∧ _needsEnd (_read e) = true)
  ∧ (_needsEnd e = false → _queue e ≠ [] →
     pushed (_read e) = pushed e ++ [Some (concat (_queue e))]
     ∧ _queue (_read e) = []
     ∧ _needsEnd (_read e) = bool_decide (_streams e = ∅))
  ∧ (_needsEnd e = false → _queue e = [] →
     pushed (_read e) = pushed e
     ∧ _page_listeners (_read e) = S (_page_listeners e)
     ∧ _needsEnd (_read e) = false)
  ∧ (∀ i l, pushed (step i e) = pushed e ++ l → None ∈ l →
     i = read ∧ _needsEnd e = true)
  ∧ (_needsEnd e = true →
     ∃ ins1 j ins2, ins = ins1 ++ j :: ins2
       ∧ _needsEnd (exec ins1 new_Encoder) = false
       ∧ _needsEnd (exec (ins1 ++ [j]) new_Encoder) = true
       ∧ _streams (exec (ins1 ++ [j]) new_Encoder) = ∅
       ∧ _queue (exec (ins1 ++ [j]) new_Encoder) = [])
  ∧ (_needsEnd e = true → ∀ i, _needsEnd (step i e) = true)
  ∧ (∀ s og hlen blen e_o_s, _page_listeners e = 0%nat →
     _queue (_onpage s og hlen blen e_o_s e)
     = _queue e ++ [Binding.ogg_page_to_buffer og
                      (new_Buffer (Z.to_nat (hlen + blen)))]
     ∧ pushed (_onpage s og hlen blen e_o_s e) = pushed e)
  ∧ (∀ s og hlen blen e_o_s, _page_listeners e = 1%nat →
     pushed (_onpage s og hlen blen e_o_s e)
     = pushed e
       ++ [Some (concat (_queue e
                         ++ [Binding.ogg_page_to_buffer og
                               (new_Buffer (Z.to_nat (hlen + blen)))]))]
     ∧ _queue (_onpage s og hlen blen e_o_s e) = []
     ∧ _needsEnd (_onpage s og hlen blen e_o_s e)
       = bool_decide ((if truthy e_o_s then delete (serialno s) (_streams e)
                       else _streams e) = ∅))
  ∧ (∀ i n this, _streams e !! n = Some this →
     _streams (step i e) !! n = None →
     ∃ that og hlen blen e_o_s,
       i = page that og hlen blen e_o_s ∧ truthy e_o_s = true).
Proof.
  intros e.
  destruct (inv_exec ins new_Encoder inv_new) as [A _]. fold e in A.
  split; [|split; [|split; [|split; [|split; [|split; [|split; [|split]]]]]]].
  - intros H1. unfold _read. rewrite H1. done.
  - intros H0 Hq. unfold _read. rewrite H0.
    destruct (_queue e) eqn:E; [done|]. cbn. rewrite E.
    split; [done|]. split; [done|].
    apply bool_decide_ext. apply map_size_empty_iff.
  - intros H0 Hq. unfold _read. rewrite H0, Hq. done.
  - intros i l Hp Hn. destruct (step_pushed i e A) as (l' & Hp' & Hl').
    rewrite Hp in Hp'. apply app_inv_head in Hp'. subst l'. by apply Hl'.
  - apply latch_history.
  - intros H1 i. apply ended_step; [|done].
    apply waiting_sound_exec, waiting_sound_new.
  - intros s og hlen blen e_o_s H0. unfold _onpage, emit__page. cbn.
    by rewrite H0.
  - intros s og hlen blen e_o_s H1. unfold _onpage, emit__page. cbn.
    rewrite H1. cbn. split; [done|]. split; [done|].
    apply bool_decide_ext. apply map_size_empty_iff.
  - intros i n this. by apply only_eos_page_removes.
Qed.

Lemma C10_end_after_drain_witness :
  let e := exec drained_encoder_inputs new_Encoder in
  _needsEnd e = true
  ∧ pushed e = [Some [x4f; x67; x67; x53; x41]]
  ∧ pushed (_read e) = pushed e ++ [None]
  ∧ ∃ ins1 j ins2, drained_encoder_inputs = ins1 ++ j :: ins2
       ∧ _needsEnd (exec ins1 new_Encoder) = false
       ∧ _needsEnd (exec (ins1 ++ [j]) new_Encoder) = true
       ∧ _streams (exec (ins1 ++ [j]) new_Encoder) = ∅
       ∧ _queue (exec (ins1 ++ [j]) new_Encoder) = [].
Proof.
  split; [reflexivity|]. split; [reflexivity|].
  destruct (C10_end_after_drain drained_encoder_inputs)
    as (H1 & _ & _ & _ & H5 & _).
  split; [exact (proj1 (H1 eq_refl)) | exact (H5 eq_refl)].
Defined.

(** C10 fails as stated: the only stream has emitted its last page and the
    output has been read; a second stream, serial number 9, is opened and
    emits a page that does not end it.  The next [_read] pushes [null],
    with stream 9 in the table and its page in the queue.  And a new
    encoder, which has no stream and an empty queue, pushes nothing when it
    is read. *)
Lemma C10_counterexample :
  let e := exec late_page_inputs new_Encoder in
  _streams e !! 9 = Some 1%nat
  ∧ _queue e = [ [x4f; x67; x67; x53; x41] ]
  ∧ pushed e = [Some [x4f; x67; x67; x53; x41]]
  ∧ pushed (step read e) = [Some [x4f; x67; x67; x53; x41]; None]
  ∧ _queue (step read e) = [ [x4f; x67; x67; x53; x41] ]
  ∧ _streams new_Encoder = ∅ ∧ _queue new_Encoder = []
  ∧ pushed (step read new_Encoder) = [].
Proof. vm_compute. done. Qed.

End EncodeSide.

(** ** The page format *)
Module PageCodecFacts.
Import PageCodec.

Lemma byte_to_Z_range b : 0 <= byte_to_Z b < 256.
Proof.
  unfold byte_to_Z. pose proof (Byte.to_N_bounded b). lia.
Qed.

Lemma byte_of_to b : byte_of_Z (byte_to_Z b) = b.
Proof.
  unfold byte_of_Z. rewrite Z.mod_small by apply byte_to_Z_range.
  unfold byte_to_Z. rewrite N2Z.id. by rewrite Byte.of_to_N.
Qed.

Lemma byte_to_of z : byte_to_Z (byte_of_Z z) = z mod 256.
Proof.
  unfold byte_of_Z, byte_to_Z.
  pose proof (Z.mod_pos_bound z 256 ltac:(lia)) as Hm.
  destruct (Byte.of_N (Z.to_N (z mod 256))) as [b|] eqn:E.
  - apply Byte.to_of_N in E. rewrite E. lia.
  - apply Byte.of_N_None_iff in E. lia.
Qed.

Lemma length_le_bytes n v : length (le_bytes n v) = n.
Proof. revert v. induction n as [|n IH]; intros v; cbn; [done | by rewrite IH]. Qed.

Lemma le_value_le_bytes n v :
  0 <= v < 256 ^ Z.of_nat n → le_value (le_bytes n v) = v.
Proof.
  revert v. induction n as [|n IH]; intros v Hv.
  - cbn in *. lia.
  - cbn [le_bytes le_value fold_right]. fold (le_value (le_bytes n (v / 256))).
    rewrite byte_to_of, Z.mod_mod by lia.
    rewrite Nat2Z.inj_succ, Z.pow_succ_r in Hv by lia.
    rewrite IH.
    + pose proof (Z.div_mod v 256 ltac:(lia)). lia.
    + split; [apply Z.div_pos; lia | apply Z.div_lt_upper_bound; lia].
Qed.

(** *** The checksum is a 32-bit value *)

Lemma lxor_range n a b :
  0 <= n → 0 <= a < 2 ^ n → 0 <= b < 2 ^ n → 0 <= Z.lxor a b < 2 ^ n.
Proof.
  intros Hn Ha Hb.
  assert (0 <= Z.lxor a b) as H0 by (apply Z.lxor_nonneg; lia).
  split; [done|].
  destruct (Z.eq_dec (Z.lxor a b) 0) as [->|Hne];
    [apply Z.pow_pos_nonneg; lia|].
  apply Z.log2_lt_pow2; [lia|].
  pose proof (Z.log2_lxor a b ltac:(lia) ltac:(lia)) as Hl.
  assert (∀ x, 0 <= x < 2 ^ n → 0 < n → Z.log2 x < n) as Hx.
  { intros x Hx Hpos. destruct (Z.eq_dec x 0) as [->|]; [cbn; lia|].
    apply Z.log2_lt_pow2; lia. }
  destruct (Z.eq_dec n 0) as [->|].
  { assert (a = 0) as -> by (cbn in Ha; lia).
    assert (b = 0) as -> by (cbn in Hb; lia). done. }
  pose proof (Hx a Ha ltac:(lia)). pose proof (Hx b Hb ltac:(lia)). lia.
Qed.

Lemma uint32_range x : 0 <= uint32 x < 2 ^ 32.
Proof.
  unfold uint32. change 0xffffffff with (Z.ones 32).
  rewrite Z.land_ones by lia. apply Z.mod_pos_bound. lia.
Qed.

Lemma crc_table_range i : 0 <= nth i crc_table 0 < 2 ^ 32.
Proof.
  assert (forallb (fun x => (0 <=? x) && (x <? 2 ^ 32)) crc_table = true) as H
    by (vm_compute; reflexivity).
  destruct (Nat.lt_ge_cases i (length crc_table)) as [Hlt|Hge].
  - rewrite forallb_forall in H.
    specialize (H _ (nth_In crc_table 0 Hlt)).
    apply andb_true_iff in H as [H1 H2].
    apply Z.leb_le in H1. apply Z.ltb_lt in H2. lia.
  - rewrite nth_overflow by done. lia.
Qed.

Lemma crc_step_range acc b : 0 <= crc_step acc b < 2 ^ 32.
Proof.
  unfold crc_step. apply lxor_range; [lia | apply uint32_range | apply crc_table_range].
Qed.

Lemma crc_update_range acc bs :
  0 <= acc < 2 ^ 32 → 0 <= crc_update acc bs < 2 ^ 32.
Proof.
  revert acc. induction bs as [|b bs IH]; intros acc Hacc; [done|].
  cbn. apply IH, crc_step_range.
Qed.

Lemma page_crc_range p : 0 <= page_crc p < 2 ^ 32.
Proof. unfold page_crc, crc. apply crc_update_range. lia. Qed.

(** *** Parsing a laid-out page *)

Lemma signed64_mod g :
  - 2 ^ 63 <= g < 2 ^ 63 → signed64 (g mod 2 ^ 64) = g.
Proof.
  intros Hg. unfold signed64. destruct (Z.neg_nonneg_cases g) as [Hneg|Hpos].
  - replace (g mod 2 ^ 64) with (g + 2 ^ 64).
    + destruct (2 ^ 63 <=? g + 2 ^ 64) eqn:E; [lia | apply Z.leb_gt in E; lia].
    + apply Z.mod_unique with (-1); lia.
  - rewrite Z.mod_small by lia.
    destruct (2 ^ 63 <=? g) eqn:E; [apply Z.leb_le in E; lia | done].
Qed.

(** The parser on a buffer made of fields of the right sizes. *)
Lemma parse_fields ht (G S Q C : list byte) cnt table bd :
  length G = 8%nat → length S = 4%nat → length Q = 4%nat → length C = 4%nat →
  Z.to_nat (byte_to_Z cnt) = length table →
  Z.to_nat (sum_segments table) = length bd →
  parse (capture_pattern ++ [x00] ++ [ht] ++ G ++ S ++ Q ++ C ++ [cnt]
         ++ table ++ bd) 0
  = let p := {| header_type := ht; granule_position := signed64 (le_value G);
                serial_number := le_value S;
                page_sequence_number := le_value Q;
                checksum := le_value C;
                segment_table := table; body := bd |} in
    if page_crc p =? checksum p
    then parsed p (27 + length table + length bd)
    else CorruptPage 4.
Proof.
  intros HG HS HQ HC Hcnt Hsum.
  repeat (destruct G as [|? G]; [done|]). destruct G; [|done].
  repeat (destruct S as [|? S]; [done|]). destruct S; [|done].
  repeat (destruct Q as [|? Q]; [done|]). destruct Q; [|done].
  repeat (destruct C as [|? C]; [done|]). destruct C; [|done].
  set (buf := capture_pattern ++ _).
  assert (take 4 buf = capture_pattern) as E1 by done.
  assert (take 1 (drop 4 buf) = [x00]) as E2 by done.
  assert (take 8 (drop 6 buf) = [b; b0; b1; b2; b3; b4; b5; b6]) as E3 by done.
  assert (take 4 (drop 14 buf) = [b7; b8; b9; b10]) as E4 by done.
  assert (take 4 (drop 18 buf) = [b11; b12; b13; b14]) as E5 by done.
  assert (take 4 (drop 22 buf) = [b15; b16; b17; b18]) as E6 by done.
  assert (take 1 (drop 26 buf) = [cnt]) as E7 by done.
  assert (drop 27 buf = table ++ bd) as E8 by done.
  assert (nth 5 buf x00 = ht) as E9 by done.
  assert (length buf = (27 + (length table + length bd))%nat) as E10.
  { subst buf. cbn. by rewrite length_app. }
  assert (drop (27 + length table) buf = bd) as E11.
  { rewrite <- drop_drop, E8. apply drop_app_length. }
  unfold parse. rewrite drop_0. cbv zeta.
  rewrite E1, E2, E3, E4, E5, E6, E7, E8, E9, E10.
  rewrite !bool_decide_eq_true_2 by done. cbn [negb].
  assert (le_value [cnt] = byte_to_Z cnt) as -> by (cbn; lia).
  rewrite Hcnt, take_app_length, Hsum, E11, firstn_all.
  rewrite !(proj2 (Nat.ltb_ge _ _)) by lia.
  reflexivity.
Qed.

Lemma page_crc_with_checksum c p : page_crc (with_checksum c p) = page_crc p.
Proof. done. Qed.

Lemma length_layout p :
  length (layout p)
  = (27 + length (segment_table p) + length (body p))%nat.
Proof.
  unfold layout. rewrite !length_app, !length_le_bytes. cbn. lia.
Qed.

(** What the parser makes of a laid-out page whose checksum field holds
    [c]: the page, when [c] is the CRC; a corrupt page otherwise. *)
Lemma parse_layout p c :
  - 2 ^ 63 <= granule_position p < 2 ^ 63 →
  0 <= serial_number p < 2 ^ 32 →
  0 <= page_sequence_number p < 2 ^ 32 →
  0 <= c < 2 ^ 32 →
  structurally_valid p →
  parse (layout (with_checksum c p)) 0
  = if page_crc p =? c
    then parsed (with_checksum c p) (length (layout (with_checksum c p)))
    else CorruptPage 4.
Proof.
  intros Hg Hs Hq Hc [Hn Hb]. rewrite length_layout. unfold layout.
  cbn [with_checksum header_type granule_position serial_number
       page_sequence_number checksum segment_table body].
  rewrite parse_fields; try apply length_le_bytes.
  - cbv zeta. rewrite !le_value_le_bytes; try (cbn; lia).
    + rewrite signed64_mod by done.
      change (page_crc _) with (page_crc p) at 1. cbn [checksum]. done.
    + cbn. apply Z.mod_pos_bound. lia.
  - rewrite byte_to_of, Z.mod_small by lia. lia.
  - rewrite <- Hb. lia.
Qed.

End PageCodecFacts.

Section PageFormat.
Import PageCodec PageCodecFacts.

(** C2, as the format has it.  For every structurally valid page [p],
    parsing the serialization of [p] consumes all of it and yields [p] with
    its checksum field replaced by the CRC that [serialize] computed; it
    yields [p] itself when the checksum field of [p] already holds that
    CRC. *)
Theorem C2_round_trip (p : Page) :
  well_typed p → structurally_valid p →
  parse (serialize p) 0
  = parsed (with_checksum (page_crc p) p) (length (serialize p))
  ∧ (checksum p = page_crc p →
     parse (serialize p) 0 = parsed p (length (serialize p))).
Proof.
  intros (Hg & Hs & Hq & _) Hv.
  assert (parse (serialize p) 0
          = parsed (with_checksum (page_crc p) p) (length (serialize p))) as E.
  { unfold serialize.
    rewrite parse_layout by (done || apply page_crc_range).
    by rewrite Z.eqb_refl. }
  split; [done|]. intros Hc. rewrite E, <- Hc. by destruct p.
Qed.

Lemma stamped_page_well_typed : well_typed stamped_page.
Proof. unfold well_typed. cbn. lia. Defined.

Lemma stamped_page_valid : structurally_valid stamped_page.
Proof. split; [cbn; lia | reflexivity]. Defined.

Lemma C2_round_trip_witness :
  parse (serialize stamped_page) 0
  = parsed (with_checksum (page_crc stamped_page) stamped_page)
      (length (serialize stamped_page))
  ∧ (checksum stamped_page = page_crc stamped_page →
     parse (serialize stamped_page) 0
     = parsed stamped_page (length (serialize stamped_page))).
Proof.
  exact (C2_round_trip stamped_page stamped_page_well_typed stamped_page_valid).
Defined.

(** C2 fails as stated: the page is structurally valid, its checksum field
    holds 0, and parsing its serialization yields the page with checksum
    3237561452. *)
Lemma C2_counterexample :
  well_typed unstamped_page ∧ structurally_valid unstamped_page
  ∧ parse (serialize unstamped_page) 0 = parsed stamped_page 31
  ∧ ∀ n, parse (serialize unstamped_page) 0 ≠ parsed unstamped_page n.
Proof.
  split; [unfold well_typed; cbn; lia|].
  split; [split; [cbn; lia | reflexivity]|].
  assert (parse (serialize unstamped_page) 0 = parsed stamped_page 31) as E
    by (vm_compute; reflexivity).
  split; [exact E|]. intros n. rewrite E. intros H. inversion H.
Qed.

End PageFormat.

(** ** More on the encode side *)
Module EncoderMore.
Import Encoder EncoderFacts.

(** *** The bytes that pass through the encoder *)

Lemma output_bytes_output e : output_bytes (output e) = output_bytes e.
Proof.
  unfold output_bytes, output. cbn.
  rewrite omap_app, concat_app. cbn. by rewrite !app_nil_r.
Qed.

Lemma output_bytes_iter n e : output_bytes (Nat.iter n output e) = output_bytes e.
Proof.
  induction n as [|n IH]; [done|].
  change (Nat.iter (S n) output e) with (output (Nat.iter n output e)).
  by rewrite output_bytes_output.
Qed.

Lemma output_bytes__onpage s og hlen blen e_o_s e :
  output_bytes (_onpage s og hlen blen e_o_s e)
  = output_bytes e
    ++ Binding.ogg_page_to_buffer og (new_Buffer (Z.to_nat (hlen + blen))).
Proof.
  unfold _onpage, emit__page. rewrite output_bytes_iter.
  unfold output_bytes. cbn. rewrite concat_app. cbn.
  by rewrite app_nil_r, app_assoc.
Qed.

Lemma output_bytes_step i e :
  attached_once e → output_bytes (step i e) = output_bytes e ++ page_bytes i e.
Proof.
  intros A. destruct i as [arg rnd r|this og hlen blen e_o_s|];
    cbn [step page_bytes].
  - rewrite app_nil_r. unfold stream. destruct (lookup_stream arg e); [done|].
    by destruct (new_EncoderStream arg rnd r).
  - destruct (objects e !! this) as [s|] eqn:Ho.
    + rewrite (emit_page_once this s) by eauto. apply output_bytes__onpage.
    + unfold emit_page. rewrite Ho. by rewrite app_nil_r.
  - rewrite app_nil_r. unfold _read. destruct (_needsEnd e).
    + unfold output_bytes. cbn. rewrite omap_app. cbn. by rewrite app_nil_r.
    + destruct (_queue e) eqn:Hq; [|apply output_bytes_output].
      unfold output_bytes. cbn. by rewrite Hq.
Qed.

Lemma output_bytes_exec ins e :
  inv e → output_bytes (exec ins e) = output_bytes e ++ received ins e.
Proof.
  revert e. induction ins as [|i ins IH]; intros e I.
  - cbn. by rewrite app_nil_r.
  - cbn [exec fold_left received]. fold (exec ins (step i e)).
    rewrite IH by (by apply inv_step).
    rewrite output_bytes_step by apply I. by rewrite app_assoc.
Qed.

(** *** [_pageout] *)


End EncoderMore.

Section EncodeSideMore.
Import Encoder EncoderFacts EncoderMore.

Lemma reachable_inv ins : inv (exec ins new_Encoder).
Proof. apply inv_exec, inv_new. Qed.

Lemma reachable_well_formed ins : well_formed (exec ins new_Encoder).
Proof. apply well_formed_exec, well_formed_new. Qed.

(** X1.  In any state the encoder can reach, the stream that
    [stream(serialno)] returns has the serial number that was asked for (the
    generated one when none was given) and is the table's entry for it; the
    entries of the other serial numbers are left as they are. *)
Theorem stream_serves_requested_serial (ins : list input) (arg : option Z)
    (rnd : double) (r : Z) (this : nat) (e1 : Encoder) :
  let e := exec ins new_Encoder in
  stream arg rnd r e = (inr this, e1) →
  (∃ s, objects e1 !! this = Some s ∧ serialno s = requested_serial arg rnd)
  ∧ _streams e1 !! requested_serial arg rnd = Some this
  ∧ ∀ m, m ≠ requested_serial arg rnd → _streams e1 !! m = _streams e !! m.
Proof.
  intros e H. destruct (reachable_well_formed ins) as [_ K]. fold e in K.
  unfold stream in H.
  destruct (lookup_stream arg e) as [that|] eqn:Hl.
  - inversion H; subst. destruct arg as [n|]; [|done]. cbn in Hl |- *.
    destruct (K _ _ Hl) as (s & ? & ?). eauto.
  - assert (new_EncoderStream arg rnd r
            = if r =? 0 then inr {| serialno := requested_serial arg rnd;
                                     page_listeners := 0 |}
              else inl (ogg_stream_init_failed r)) as E by done.
    rewrite E in H. destruct (r =? 0); [|done]. inversion H; subst. cbn.
    rewrite !lookup_insert_eq. split; [eauto|]. split; [done|].
    intros m Hm. by rewrite lookup_insert_ne.
Qed.

Lemma stream_serves_requested_serial_witness :
  ∃ e1, stream (Some 9) colliding_draw 0 encoder_with_7 = (inr 1%nat, e1)
    ∧ (∃ s, objects e1 !! 1%nat = Some s ∧ serialno s = 9)
    ∧ _streams e1 !! 9 = Some 1%nat
    ∧ ∀ m, m ≠ 9 → _streams e1 !! m = _streams encoder_with_7 !! m.
Proof.
  eexists. split; [reflexivity|].
  exact (stream_serves_requested_serial
           [call_stream (Some 7) colliding_draw 0] (Some 9) colliding_draw 0
           1%nat _ eq_refl).
Defined.

(** X2.  In any state the encoder can reach, two serial numbers never
    share a stream object. *)
Theorem streams_injective (ins : list input) (n m : Z) (this : nat) :
  let e := exec ins new_Encoder in
  _streams e !! n = Some this → _streams e !! m = Some this → n = m.
Proof.
  intros e Hn Hm. destruct (reachable_well_formed ins) as [_ K]. fold e in K.
  destruct (K _ _ Hn) as (s & Hs & <-). destruct (K _ _ Hm) as (s' & Hs' & <-).
  congruence.
Qed.

Lemma streams_injective_witness :
  let e := exec [call_stream (Some 7) colliding_draw 0;
                 call_stream (Some 9) colliding_draw 0] new_Encoder in
  _streams e !! 9 = Some 1%nat ∧ 9 = 9.
Proof.
  split; [reflexivity|].
  exact (streams_injective
           [call_stream (Some 7) colliding_draw 0;
            call_stream (Some 9) colliding_draw 0] 9 9 1%nat eq_refl eq_refl).
Defined.

(** X3.  Whatever is done with the encoder, the bytes it has pushed,
    followed by the bytes still in its queue, are the buffers of the pages
    its streams emitted, in the order of emission, each once. *)
Theorem no_byte_lost_or_reordered (ins : list input) :
  output_bytes (exec ins new_Encoder) = received ins new_Encoder.
Proof. by rewrite output_bytes_exec by apply inv_new. Qed.

Lemma ended_exec ins' e :
  waiting_sound e → _needsEnd e = true →
  _needsEnd (exec ins' e) = true
  ∧ pushed (exec ins' e) = pushed e ++ replicate (reads ins') None.
Proof.
  revert e. induction ins' as [|i ins' IH]; intros e W H1.
  - cbn. by rewrite app_nil_r.
  - destruct (ended_step i e W H1) as [H1' Hp].
    destruct (IH (step i e) (waiting_sound_step i e W) H1') as [IH1 IH2].
    cbn [exec fold_left]. fold (exec ins' (step i e)).
    split; [done|]. rewrite IH2, Hp, <- app_assoc, <- replicate_add.
    by destruct i.
Qed.

(** X4.  Once the encoder has set [_needsEnd], it stays set: every later
    [_read] pushes [null] and nothing else is pushed, whatever streams are
    opened and whatever pages arrive afterwards. *)
Theorem ended_stays_ended (ins ins' : list input) :
  let e := exec ins new_Encoder in
  _needsEnd e = true →
  _needsEnd (exec ins' e) = true
  ∧ pushed (exec ins' e) = pushed e ++ replicate (reads ins') None.
Proof.
  intros e H1. apply ended_exec; [|done].
  apply waiting_sound_exec, waiting_sound_new.
Qed.

Lemma ended_stays_ended_witness :
  let e := exec drained_encoder_inputs new_Encoder in
  _needsEnd (exec late_inputs e) = true
  ∧ pushed (exec late_inputs e) = pushed e ++ [None].
Proof.
  exact (ended_stays_ended drained_encoder_inputs late_inputs eq_refl).
Defined.



(** X6.  [_write] of a packet Buffer that carries the [flush] command: when
    [ogg_stream_packetin] fails, the error goes to the callback and nothing
    is flushed; when it answers 0, the stream is flushed, every page is
    queued in the encoder, and the callback is called without error. *)
Theorem _write_packet_then_flush (e : Encoder) (this : nat) (s : EncoderStream)
    (p : packet) (pages : list Binding.response) (og : Binding.ogg_page)
    (hlen blen e_o_s : Z) (rest : list Binding.response) :
  is_buffer p = true → flush_command p = true →
  objects e !! this = Some s → page_listeners s = 1%nat →
  Forall flushed_page pages → _page_listeners e = 0%nat →
  let script := pages ++ Binding.ogg_stream_flush 0 og hlen blen e_o_s :: rest in
  (∀ rtn, rtn ≠ 0 →
     _write p (Binding.ogg_stream_packetin rtn :: script) this e
     = (Some (Some (ogg_stream_packetin_error rtn)), e, script))
  ∧ ∃ e', _write p (Binding.ogg_stream_packetin 0 :: script) this e
          = (Some None, e', rest)
      ∧ _queue e' = _queue e ++ List.map page_buffer pages.
Proof.
  intros Hb Hf Ho Hl Hp H0 script. split.
  - intros rtn Hr. unfold _write. rewrite Hb. apply Z.eqb_neq in Hr.
    by rewrite Hr.
  - destruct (_flush_drains pages e this s og hlen blen e_o_s rest Ho Hl Hp)
      as (e' & Hrun & _ & Hq).
    exists e'. unfold _write, checkCommand. rewrite Hb, Hf. cbn [Z.eqb].
    split; [done|]. by destruct (Hq H0).
Qed.

Lemma _write_packet_then_flush_witness :
  let script := [Binding.ogg_stream_flush 1 a_page 4 1 0;
                 Binding.ogg_stream_flush 0 no_page 0 0 0] in
  (∀ rtn, rtn ≠ 0 →
     _write flushing_packet (Binding.ogg_stream_packetin rtn :: script)
       0%nat encoder_with_7
     = (Some (Some (ogg_stream_packetin_error rtn)), encoder_with_7, script))
  ∧ ∃ e', _write flushing_packet (Binding.ogg_stream_packetin 0 :: script)
            0%nat encoder_with_7 = (Some None, e', [])
      ∧ _queue e' = _queue encoder_with_7 ++ [ [x4f; x67; x67; x53; x41] ].
Proof.
  apply (_write_packet_then_flush encoder_with_7 0%nat
           {| serialno := 7; page_listeners := 1 |} flushing_packet
           [Binding.ogg_stream_flush 1 a_page 4 1 0] no_page 0 0 0 []).
  - reflexivity.
  - reflexivity.
  - reflexivity.
  - reflexivity.
  - repeat constructor. discriminate.
  - reflexivity.
Defined.

(** X7.  When [stream()] is called without a serial number and the generated
    number is already in the table, the new stream takes the entry and is a
    different object from the one that held it; the displaced stream keeps
    its 'page' listener, and its end-of-stream page removes the entry of the
    stream that displaced it. *)
Theorem collision_displaces (ins : list input) (rnd : double)
    (old new : nat) (e1 : Encoder) :
  let e := exec ins new_Encoder in
  let n := to_int32 (times_1000000 rnd) in
  _streams e !! n = Some old →
  stream None rnd 0 e = (inr new, e1) →
  new ≠ old
  ∧ _streams e1 !! n = Some new
  ∧ (∃ s, objects e1 !! old = Some s ∧ serialno s = n
          ∧ page_listeners s = 1%nat)
  ∧ ∀ og hlen blen e_o_s, truthy e_o_s = true →
      _streams (emit_page old og hlen blen e_o_s e1) !! n = None.
Proof.
  intros e n Hold H. destruct (reachable_well_formed ins) as [F K].
  destruct (reachable_inv ins) as [A _]. fold e in F, K, A.
  destruct (K _ _ Hold) as (s & Hs & Hn).
  pose proof (F _ _ Hs) as Hlt. pose proof (A _ _ Hs) as Hone.
  cbn in H. inversion H; subst new e1. clear H. cbn.
  assert (next_id e ≠ old) as Hne by lia.
  rewrite lookup_insert_eq, lookup_insert_ne by done.
  split; [done|]. split; [done|]. split; [eauto|].
  intros og hlen blen e_o_s He.
  rewrite (emit_page_once old s) by (cbn; by rewrite ?lookup_insert_ne).
  rewrite _onpage_streams, He, Hn. cbn. apply lookup_delete_eq.
Qed.

Lemma collision_displaces_witness :
  ∃ e1, stream None colliding_draw 0 encoder_with_7 = (inr 1%nat, e1)
    ∧ 1%nat ≠ 0%nat
    ∧ _streams e1 !! 7 = Some 1%nat
    ∧ (∃ s, objects e1 !! 0%nat = Some s ∧ serialno s = 7
            ∧ page_listeners s = 1%nat)
    ∧ ∀ og hlen blen e_o_s, truthy e_o_s = true →
        _streams (emit_page 0%nat og hlen blen e_o_s e1) !! 7 = None.
Proof.
  eexists. split; [reflexivity|].
  exact (collision_displaces [call_stream (Some 7) colliding_draw 0]
           colliding_draw 0%nat 1%nat _ eq_refl eq_refl).
Defined.

End EncodeSideMore.

(** ** More on the decode side *)
Module DecoderMore.
Import Decoder DecoderFacts.

(** *** What holds in every state the decoder reaches *)

Lemma advance_steady d d' : advance d d' → steady d → steady d'.
Proof.
  induction 1 as [d| ? ? ? _ IH1 _ IH2 |d s n|d this Hl|d c Hc Hp
                  |d this this' Hl Hs Hid Hq|d s Hnone];
    intros St; auto.
  - destruct St as (K & Q & R & P). split; [done|]. split; [done|]. split.
    + cbn. intros fr ->. done.
    + done.
  - destruct St as (K & Q & R & P).
    split; [|split; [|split; [done|]]].
    + intros s x. cbn. rewrite lookup_insert_Some.
      intros [[<- <-]|[_ Hx]]; [done | by apply K].
    + intros s x. cbn. rewrite lookup_insert_Some.
      intros [[_ <-]|[_ Hx]]; [done | by eapply Q].
    + intros t n Ht. destruct (P t n Ht) as (x & Hx & Hi). cbn.
      destruct (decide (serialno this' = serialno t)) as [E|E].
      * rewrite E, lookup_insert_eq. exists this'. split; [done|].
        rewrite Hs in E. rewrite E in Hl. congruence.
      * rewrite lookup_insert_ne by done. eauto.
  - destruct St as (K & Q & R & P). unfold _stream. rewrite Hnone. cbn.
    split; [|split; [|split; [done|]]].
    + intros s' x. cbn. rewrite lookup_insert_Some.
      intros [[<- <-]|[_ Hx]]; [done | by apply K].
    + intros s' x. cbn. rewrite lookup_insert_Some.
      intros [[_ <-]|[_ Hx]]; [done | by eapply Q].
    + intros t n Ht. destruct (P t n Ht) as (x & Hx & Hi). cbn.
      rewrite lookup_insert_ne by congruence. eauto.
Qed.

Lemma advance_ctl d d' :
  advance d d' → ctl d' = ctl d ∨ awaits_native (ctl d') = true.
Proof.
  induction 1 as [| ? ? ? _ IH1 _ IH2 | | | | | d s Hnone]; cbn; auto.
  - destruct IH2 as [E|?]; [|by right]. rewrite E. done.
  - unfold _stream. rewrite Hnone. by left.
Qed.

Lemma advance_log d d' :
  advance d d' →
  ∃ l, log d' = log d ++ l
       ∧ Forall (λ e, is_finish e = false ∧ is_delivery e = false) l.
Proof.
  induction 1 as [d| ? ? ? _ (l1 & E1 & F1) _ (l2 & E2 & F2)
                  |d s n|d this Hl|d c|d this this' _ _ _ _|d s Hnone].
  - exists []. by rewrite app_nil_r.
  - exists (l1 ++ l2). rewrite E2, E1, app_assoc. split; [done|].
    by apply Forall_app.
  - exists [decoder_emit_page s n]. split; [done | by repeat constructor].
  - exists [stream_emit_page (id this)]. split; [done | by repeat constructor].
  - exists []. by rewrite app_nil_r.
  - exists []. by rewrite app_nil_r.
  - unfold _stream. rewrite Hnone. cbn.
    exists [decoder_emit_stream (next_id d) s]. split; [done | by repeat constructor].
Qed.

Lemma steady_new : steady new_Decoder.
Proof.
  split; [apply keyed_new|]. split; [|split; [done|]].
  - intros s this. cbn. by rewrite lookup_empty.
  - intros t n. done.
Qed.

(** *** The shape of a run *)

Lemma ends_after d1 d2 d3 : advance d1 d2 → ends d2 d3 → ends d1 d3.
Proof.
  intros T (dm & e & T' & He & ->). exists dm, e.
  split; [by eapply advance_trans | done].
Qed.

Lemma ends_steady d d' : steady d → ends d d' → steady d'.
Proof.
  intros St (dm & e & A & He & ->).
  destruct (advance_steady _ _ A St) as (K & Q & _ & _).
  split; [done|]. split; [done|]. split.
  - cbn. destruct e; done.
  - intros t n. cbn. destruct e; done.
Qed.

Lemma run_idle script d : ctl d = idle → run script d = (d, script).
Proof. intros H. destruct script; [done|]. cbn. by rewrite H. Qed.

Lemma run_crashed script d : ctl d = crashed → run script d = (d, script).
Proof. intros H. destruct script; [done|]. cbn. by rewrite H. Qed.

(** The packet [packetout] made has no [replace]: the exception is all
    that [afterPacketout] does with it. *)
Lemma got_packet_throws fr bytes b_o_s e_o_s granulepos packetno d :
  got_packet fr
    (ogg_stream_packetout_fills new_OggPacket bytes b_o_s e_o_s granulepos
       packetno) d
  = throw packet_replace_is_not_a_function d.
Proof. reflexivity. Qed.

Lemma advance_to d c :
  awaits_native c = true → (∀ t n, c ≠ at_stream_pagein t n) →
  advance d (goto c d).
Proof. intros Hc Hn. constructor; [done|]. intros t n E. by destruct (Hn t n). Qed.

Lemma advance_to_pagein d x n :
  keyed d → _streams d !! serialno x = Some x →
  advance d (goto (at_stream_pagein x n) d).
Proof.
  intros K Hl. constructor; [done|]. intros t m [= <- <-]. eauto.
Qed.

Lemma advance_packetout fr d : advance d (packetout fr d).
Proof.
  unfold packetout. destruct (fr_packets fr =? 0); by apply advance_to.
Qed.

Lemma run_shape script d :
  steady d → advance d (run script d).1 ∨ ends d (run script d).1.
Proof.
  revert d. induction script as [|answer script IH]; intros d St;
    [left; constructor|].
  assert (∀ d2, advance d d2 →
            advance d (run script d2).1 ∨ ends d (run script d2).1) as Hgo.
  { intros d2 T. destruct (IH d2 (advance_steady _ _ T St)) as [T'|E].
    - left. by eapply advance_trans.
    - right. by eapply ends_after. }
  assert (∀ err, ends d (callback err d)) as Hcb.
  { intros err. exists d, (write_callback err). split; [constructor | done]. }
  assert (∀ err dm, advance d dm → ends d (throw err dm)) as Hth.
  { intros err dm T. by exists dm, (thrown err). }
  pose proof St as (K & Q & R & P).
  cbn [run].
  destruct (ctl d) as [ | | |s0 n0|this0 n0|fr|fr| ] eqn:Hc,
           answer as [r|rtn|rtn sn pk|r|rtn ? ? ? ? ?|rtn|rtn ? ? ? ?|rtn ? ? ? ?];
    try (left; constructor).
  - (* afterWrite *)
    destruct (_ =? 0); [|right; apply Hcb]. apply Hgo. by apply advance_to.
  - (* afterPageout *)
    destruct (rtn =? 1); [|destruct (rtn =? 0); right; apply Hcb].
    pose proof (advance_page d sn pk) as T1.
    pose proof (advance_steady _ _ T1 St) as (K1 & _).
    cbn [emit _streams]. destruct (_streams d !! sn) as [x|] eqn:Hl.
    + unfold _stream. cbn [emit _streams]. rewrite Hl. apply Hgo.
      eapply advance_trans; [exact T1|]. apply advance_to_pagein; [done|].
      cbn. by rewrite (K _ _ Hl).
    + apply Hgo. eapply advance_trans; [exact T1|]. by apply advance_to.
  - (* new DecoderStream *)
    destruct (_streams d !! s0) as [x|] eqn:Hl.
    + unfold _stream. rewrite Hl. apply Hgo. apply advance_to_pagein; [done|].
      by rewrite (K _ _ Hl).
    + destruct (r =? 0) eqn:Hr.
      * apply Z.eqb_eq in Hr. subst r.
        pose proof (advance_create d s0 Hl) as T1.
        pose proof (advance_steady _ _ T1 St) as (K1 & _).
        revert T1 K1. unfold _stream, new_DecoderStream. rewrite Hl.
        cbn [Z.eqb snd fst]. intros T1 K1. apply Hgo.
        eapply advance_trans; [exact T1|]. apply advance_to_pagein; [done|].
        cbn. apply lookup_insert_eq.
      * unfold _stream, new_DecoderStream. rewrite Hl, Hr. right.
        apply Hth. constructor.
  - (* afterPagein *)
    destruct (r =? 0); [|right; apply Hcb].
    destruct (P this0 n0 eq_refl) as (x & Hx & Hi).
    apply Hgo. rewrite <- Hi.
    eapply advance_trans; [|apply advance_packetout].
    apply advance_stream_page. by rewrite (K _ _ Hx).
  - (* afterPacketout *)
    destruct (rtn =? 1).
    + rewrite got_packet_throws, run_crashed by done. right.
      apply Hth. constructor.
    + destruct (rtn =? -1); [|right; apply Hcb].
      apply Hgo. apply advance_packetout.
Qed.

Lemma _read_quiet s d :
  steady d →
  _read s d = d
  ∨ ∃ this, _streams d !! s = Some this
      ∧ _read s d
        = set_stream {| id := id this; serialno := serialno this;
                        packets := [];
                        _packet_listeners := S (_packet_listeners this) |} d.
Proof.
  intros (K & Q & _). unfold _read.
  destruct (_streams d !! s) as [this|] eqn:Hl; [|by left].
  rewrite (Q _ _ Hl). right. eauto.
Qed.

Lemma _read_advance s d : steady d → advance d (_read s d).
Proof.
  intros St. destruct (_read_quiet s d St) as [->|(this & Hl & ->)];
    [constructor|].
  destruct St as (K & _).
  apply advance_listen with this; [by rewrite (K _ _ Hl) | done..].
Qed.

Lemma _read_fields s d :
  steady d → ctl (_read s d) = ctl d ∧ log (_read s d) = log d.
Proof.
  intros St. by destruct (_read_quiet s d St) as [->|(this & Hl & ->)].
Qed.

Lemma step_shape i w :
  steady w.1 → advance w.1 (step i w).1 ∨ ends w.1 (step i w).1.
Proof.
  destruct w as [d script]. cbn [fst]. intros St. destruct i as [|s]; cbn [step].
  - destruct (ctl d) eqn:Hc; try (left; constructor).
    assert (advance d (goto at_sync_write d)) as T by (by apply advance_to).
    destruct (run_shape script _ (advance_steady _ _ T St)) as [T'|E].
    + left. by eapply advance_trans.
    + right. by eapply ends_after.
  - pose proof (_read_advance s d St) as T.
    destruct (run_shape script _ (advance_steady _ _ T St)) as [T'|E].
    + left. by eapply advance_trans.
    + right. by eapply ends_after.
Qed.

Lemma shape_steady d d' : steady d → advance d d' ∨ ends d d' → steady d'.
Proof. intros St [A|E]; [by eapply advance_steady | by eapply ends_steady]. Qed.

Lemma exec_steady ins w : steady w.1 → steady (exec ins w).1.
Proof.
  revert w. induction ins as [|i ins IH]; intros w St; [done|].
  cbn. apply IH. eapply shape_steady; [exact St | by apply step_shape].
Qed.

(** A decoder that an exception has stopped does nothing more. *)
Lemma step_crashed i w :
  steady w.1 → ctl w.1 = crashed →
  (step i w).2 = w.2 ∧ ctl (step i w).1 = crashed ∧ log (step i w).1 = log w.1.
Proof.
  destruct w as [d script]. cbn [fst snd]. intros St Hc.
  destruct i as [|s]; cbn [step].
  - by rewrite Hc.
  - destruct (_read_fields s d St) as [E1 E2].
    rewrite run_crashed by congruence. cbn. split; [done|]. split; congruence.
Qed.

Lemma exec_crashed ins w :
  steady w.1 → ctl w.1 = crashed →
  (exec ins w).2 = w.2 ∧ ctl (exec ins w).1 = crashed
  ∧ log (exec ins w).1 = log w.1.
Proof.
  revert w. induction ins as [|i ins IH]; intros w St Hc; [done|].
  destruct (step_crashed i w St Hc) as (E1 & E2 & E3).
  cbn [exec fold_left]. fold (exec ins (step i w)).
  destruct (IH (step i w)) as (I1 & I2 & I3);
    [eapply shape_steady; [exact St | by apply step_shape] | done |].
  split; [congruence|]. split; [done | congruence].
Qed.

(** *** 'stream' comes first *)

Lemma announced_first_snoc l e :
  announced_first l →
  (∀ i, stream_of e = Some i → ∃ s, decoder_emit_stream i s ∈ l) →
  announced_first (l ++ [e]).
Proof.
  intros A He l1 e' l2 i E Hi.
  destruct l2 as [|x l2 _] using rev_ind.
  - apply app_inj_tail in E as [-> ->]. by apply He.
  - rewrite app_comm_cons, app_assoc in E. apply app_inj_tail in E as [-> _].
    by eapply A.
Qed.

Lemma known_emit_other d e : stream_of e = None → known d → known (emit e d).
Proof.
  intros He [K1 K2]. split.
  - intros s this Hl. cbn. apply elem_of_app. left. by apply K1.
  - cbn. apply announced_first_snoc; [done|]. intros i Hi. congruence.
Qed.

Lemma advance_known d d' : advance d d' → known d → known d'.
Proof.
  induction 1 as [d| ? ? ? _ IH1 _ IH2
                  |d s n|d this Hl|d c|d this this' Hl Hs Hid _|d s Hnone];
    intros Kn; auto.
  - by apply known_emit_other.
  - destruct Kn as [K1 K2]. split.
    + intros s x Hx. cbn. apply elem_of_app. left. by apply K1.
    + cbn. apply announced_first_snoc; [done|]. intros i Hi.
      inversion Hi; subst. eauto.
  - destruct Kn as [K1 K2]. split; [|done].
    intros s x. cbn. rewrite Hs, lookup_insert_Some.
    intros [[<- <-]|[_ Hx]]; [|by apply K1]. rewrite Hid. by apply K1.
  - destruct Kn as [K1 K2]. unfold _stream. rewrite Hnone. cbn. split.
    + intros s' x. cbn.
      rewrite lookup_insert_Some, elem_of_app, list_elem_of_singleton.
      intros [[<- <-]|[_ Hx]]; [by right | left; by apply K1].
    + cbn. apply announced_first_snoc; [done|]. intros i Hi. done.
Qed.

Lemma known_new : known new_Decoder.
Proof.
  split.
  - intros s this. cbn. by rewrite lookup_empty.
  - intros l1 e l2 i E. by destruct l1.
Qed.

Lemma shape_known d d' : advance d d' ∨ ends d d' → known d → known d'.
Proof.
  intros [A|(dm & e & A & He & ->)] Kn; [by eapply advance_known|].
  pose proof (advance_known _ _ A Kn) as Kn'.
  assert (stream_of e = None) as Hs by (by destruct e).
  destruct (known_emit_other dm e Hs Kn') as [K1 K2]. by split.
Qed.

Lemma exec_known ins w : steady w.1 → known w.1 → known (exec ins w).1.
Proof.
  revert w. induction ins as [|i ins IH]; intros w St Kn; [done|].
  cbn. pose proof (step_shape i w St) as S.
  apply IH; [by eapply shape_steady | by eapply shape_known].
Qed.

(** *** Nothing is delivered *)

Lemma shape_log d d' :
  advance d d' ∨ ends d d' →
  ∃ l, log d' = log d ++ l ∧ Forall (λ e, is_delivery e = false) l.
Proof.
  intros [A|(dm & e & A & He & ->)].
  - destruct (advance_log _ _ A) as (l & E & F). exists l. split; [done|].
    eapply Forall_impl; [exact F|]. by intros x [_ ?].
  - destruct (advance_log _ _ A) as (l & E & F). exists (l ++ [e]). cbn.
    rewrite E, app_assoc. split; [done|]. apply Forall_app. split.
    + eapply Forall_impl; [exact F|]. by intros x [_ ?].
    + repeat constructor. by destruct e.
Qed.

Lemma exec_log ins w :
  steady w.1 →
  ∃ l, log (exec ins w).1 = log w.1 ++ l
       ∧ Forall (λ e, is_delivery e = false) l.
Proof.
  revert w. induction ins as [|i ins IH]; intros w St.
  - exists []. by rewrite app_nil_r.
  - pose proof (step_shape i w St) as S.
    destruct (shape_log _ _ S) as (l1 & E1 & F1).
    destruct (IH (step i w) (shape_steady _ _ St S)) as (l2 & E2 & F2).
    exists (l1 ++ l2). cbn [exec fold_left]. fold (exec ins (step i w)).
    rewrite E2, E1, app_assoc. split; [done | by apply Forall_app].
Qed.

End DecoderMore.

Section DecodeSideMore.
Import Decoder DecoderFacts DecoderMore.

Lemma reachable_steady ins script0 : steady (exec ins (new_Decoder, script0)).1.
Proof. apply (exec_steady ins (new_Decoder, script0)), steady_new. Qed.

(** X8.  Whatever the decoder is fed, an input makes it finish a write (by
    the write callback, or by an exception) at most once, and that is then
    the last thing the input causes.  After the callback no write is
    running; after an exception the write stays unfinished for good: no
    later input has any effect on the log, and the answers of libogg are
    left alone.  Otherwise a write that is under way stays under way; and
    the decoder finishes a write only when one was under way or is
    started by the input. *)
Theorem write_ends_once (ins : list input) (script0 : list Binding.response)
    (i : input) :
  let w := exec ins (new_Decoder, script0) in
  let w' := step i w in
  ∃ l, log w'.1 = log w.1 ++ l
    ∧ ((Forall (λ e, is_finish e = false) l
        ∧ (ctl w.1 ≠ idle → ctl w'.1 ≠ idle)
        ∧ (ctl w.1 ≠ crashed → ctl w'.1 ≠ crashed)
        ∧ (ctl w.1 = crashed → ctl w'.1 = crashed ∧ l = [] ∧ w'.2 = w.2))
       ∨ (∃ l0 e, l = l0 ++ [e] ∧ Forall (λ e, is_finish e = false) l0
            ∧ is_finish e = true
            ∧ ctl w'.1 = finished_in e
            ∧ ctl w.1 ≠ crashed
            ∧ (ctl w.1 = idle → i = write))).
Proof.
  intros w w'. pose proof (reachable_steady ins script0) as St. fold w in St.
  assert (∀ d', advance w.1 d' →
            ∃ l, log d' = log w.1 ++ l
              ∧ Forall (λ e, is_finish e = false) l
              ∧ (ctl w.1 ≠ idle → ctl d' ≠ idle)
              ∧ (ctl w.1 ≠ crashed → ctl d' ≠ crashed)) as Hadv.
  { intros d' A. destruct (advance_log _ _ A) as (l & ? & F).
    exists l. split; [done|]. split.
    { eapply Forall_impl; [exact F|]. by intros x [? _]. }
    destruct (advance_ctl _ _ A) as [->|Hn]; [done|].
    split; intros _ E; rewrite E in Hn; done. }
  assert (ctl w.1 = crashed ∨ ctl w.1 ≠ crashed) as [Hc|Hc]
    by (destruct (ctl w.1); (by left) || (by right)).
  { destruct (step_crashed i w St Hc) as (E1 & E2 & E3). fold w' in E1, E2, E3.
    exists []. rewrite app_nil_r. split; [done|]. left.
    split; [constructor|]. split; [congruence|]. split; [done|]. done. }
  assert ((ctl w.1 = idle ∧ i ≠ write) ∨ (ctl w.1 = idle → i = write))
    as [[Hi Hr]|Hn].
  { destruct i; [by right|]. destruct (ctl w.1); (by left) || (by right). }
  - destruct i as [|s]; [done|]. subst w'. destruct w as [d script].
    cbn [fst snd step] in *. destruct (_read_fields s d St) as [E1 E2].
    rewrite run_idle by congruence. cbn [fst snd].
    exists []. rewrite app_nil_r. split; [done|]. left.
    split; [constructor|]. split; [congruence|]. split; [congruence|]. done.
  - destruct (step_shape i w St) as [T|(dm & e & T & He & E)].
    + destruct (Hadv _ T) as (l & ? & ? & ? & ?). exists l. split; [done|].
      left. done.
    + destruct (Hadv _ T) as (l & El & Fl & _). fold w' in E.
      exists (l ++ [e]). rewrite E. cbn. rewrite El, app_assoc. split; [done|].
      right. exists l, e. repeat split; done.
Qed.

(** X9.  Whatever the decoder is fed, every event of a stream ('page',
    'bos', 'eos', a pushed packet, the end of its output) comes after the
    'stream' event that handed the stream object to the user. *)
Theorem stream_announced_first (ins : list input)
    (script0 : list Binding.response) :
  announced_first (log (exec ins (new_Decoder, script0)).1).
Proof.
  apply (exec_known ins (new_Decoder, script0)); [apply steady_new | apply known_new].
Qed.

(** X10.  Whatever the decoder is fed, and whatever libogg answers, no
    packet ever reaches a stream: no stream holds a packet, the decoder
    never waits for a packet to be read, and no stream has emitted 'bos'
    or 'eos' or pushed anything, a packet or the end of its output. *)
Theorem no_packet_delivered (ins : list input)
    (script0 : list Binding.response) :
  let d := (exec ins (new_Decoder, script0)).1 in
  quiet d
  ∧ (∀ fr, ctl d ≠ at_packet_read fr)
  ∧ Forall (λ e, is_delivery e = false) (log d).
Proof.
  intros d. destruct (reachable_steady ins script0) as (_ & Q & R & _).
  split; [done|]. split; [done|].
  destruct (exec_log ins (new_Decoder, script0) steady_new) as (l & E & F).
  subst d. by rewrite E.
Qed.

(** X11.  When the page of an unseen serial number arrives and
    [ogg_stream_init] fails, the decoder has emitted its 'page' event, the
    constructor's exception is thrown, no stream is stored, no 'stream'
    event is emitted, the write callback is not called, and the answers
    that follow are left alone. *)
Theorem stream_init_failure (d : Decoder) (s n r : Z)
    (rest : list Binding.response) :
  ctl d = at_sync_pageout → _streams d !! s = None → r ≠ 0 →
  ∃ d', run (Binding.ogg_sync_pageout 1 s n :: Binding.ogg_stream_init r :: rest) d
        = (d', rest)
    ∧ _streams d' = _streams d
    ∧ next_id d' = next_id d
    ∧ log d' = log d ++ [decoder_emit_page s n;
                         thrown (ogg_stream_init_failed r)].
Proof.
  intros Hc Hl Hr. apply Z.eqb_neq in Hr. cbn [run]. rewrite Hc.
  cbn [Z.eqb Pos.eqb emit _streams]. rewrite Hl. cbn [goto ctl].
  unfold _stream, new_DecoderStream. cbn [_streams goto emit]. rewrite Hl, Hr.
  eexists. split; [reflexivity|]. cbn. by rewrite <- app_assoc.
Qed.

Lemma stream_init_failure_witness :
  let d := (exec [write] (new_Decoder, [Binding.ogg_sync_write 0])).1 in
  ∃ d', run [Binding.ogg_sync_pageout 1 7 1; Binding.ogg_stream_init (-1);
             Binding.ogg_stream_pagein 0] d
        = (d', [Binding.ogg_stream_pagein 0])
    ∧ _streams d' = _streams d
    ∧ next_id d' = next_id d
    ∧ log d' = log d ++ [decoder_emit_page 7 1;
                         thrown (ogg_stream_init_failed (-1))].
Proof.
  apply (stream_init_failure
           (exec [write] (new_Decoder, [Binding.ogg_sync_write 0])).1 7 1 (-1)
           [Binding.ogg_stream_pagein 0]).
  - reflexivity.
  - reflexivity.
  - discriminate.
Defined.

(** X12.  When libogg hands a packet over ([ogg_stream_packetout]
    answering 1), whatever the packet is, the stream throws the
    [TypeError] of [packet.replace()]: no 'bos' is emitted, nothing is
    queued or pushed, the table is left as it is and the write callback is
    not called; and whatever is written or read afterwards, nothing more
    happens: the log stays as it is and the answers of libogg that follow
    are left alone. *)
Theorem packet_handed_over_throws (ins ins' : list input)
    (script0 rest : list Binding.response) (fr : frame)
    (bytes b_o_s e_o_s granulepos packetno : Z) :
  let d := (exec ins (new_Decoder, script0)).1 in
  ctl d = at_packetout fr →
  let w := run (Binding.ogg_stream_packetout 1 bytes b_o_s e_o_s granulepos
                  packetno :: rest) d in
  w = (throw packet_replace_is_not_a_function d, rest)
  ∧ _streams w.1 = _streams d
  ∧ (exec ins' w).2 = rest
  ∧ ctl (exec ins' w).1 = crashed
  ∧ log (exec ins' w).1 = log d ++ [thrown packet_replace_is_not_a_function].
Proof.
  intros d Hc w.
  assert (w = (throw packet_replace_is_not_a_function d, rest)) as E.
  { subst w. cbn [run]. rewrite Hc. cbn [Z.eqb Pos.eqb].
    rewrite got_packet_throws. by rewrite run_crashed. }
  split; [done|]. rewrite E. split; [done|].
  pose proof (reachable_steady ins script0) as St. fold d in St.
  assert (steady (throw packet_replace_is_not_a_function d)) as St'.
  { eapply ends_steady; [exact St|].
    exists d, (thrown packet_replace_is_not_a_function).
    split; [constructor | done]. }
  destruct (exec_crashed ins' (throw packet_replace_is_not_a_function d, rest))
    as (E1 & E2 & E3); [done | done |].
  done.
Qed.

Lemma packet_handed_over_throws_witness :
  let w := run [Binding.ogg_stream_packetout 1 10 1 1 0 0;
                Binding.ogg_sync_pageout 0 0 0] gap_state in
  w = (throw packet_replace_is_not_a_function gap_state,
       [Binding.ogg_sync_pageout 0 0 0])
  ∧ _streams w.1 = _streams gap_state
  ∧ (exec [read 7; write] w).2 = [Binding.ogg_sync_pageout 0 0 0]
  ∧ ctl (exec [read 7; write] w).1 = crashed
  ∧ log (exec [read 7; write] w).1
    = log gap_state ++ [thrown packet_replace_is_not_a_function].
Proof.
  exact (packet_handed_over_throws [write] [read 7; write]
           [Binding.ogg_sync_write 0; Binding.ogg_sync_pageout 1 7 1;
            Binding.ogg_stream_init 0; Binding.ogg_stream_pagein 0]
           [Binding.ogg_sync_pageout 0 0 0]
           {| fr_serialno := 7; fr_packets := 1; fr_packet := None |}
           10 1 1 0 0 eq_refl).
Defined.

End DecodeSideMore.
